(** * Value resolvers of the go-wasm-lib generator

    A shallow embedding of [src/generator/value-resolvers.go]: the
    type-directed resolver that, from a native Go type expression, a JS
    source expression and an optional destination, builds the Go
    expression and the statements converting the JS value.

    The generated code is a [go/ast] tree; the part of [go/ast] the
    resolver reads or builds is embedded below, constructor by constructor
    and field by field.  AST nodes the Go parser always allocates are taken
    as present; the two handles the resolver itself tests against nil
    ([dst] and [ArrayType.Len]) are options. *)

From Stdlib Require Import String List Arith Lia Bool.
From stdpp Require Import base option list strings gmap pretty.

#[local] Set Warnings "-register-all".

#[local] Open Scope string_scope.
#[local] Open Scope list_scope.

(** ** go/token *)

Inductive token : Set :=
  | INT | ASSIGN | DEFINE | VAR
  | EQL | NEQ | LSS | LAND | LOR
  | INC | DEC.

(** ** go/ast expressions and type expressions

    An identifier node is kept as its [Name]; [Sel] of a selector is the
    name of its identifier. *)

Inductive expr : Type :=
  | Ident (Name : string)
  | Ellipsis (Elt : expr)
  | BasicLit (Kind : token) (Value : string)
  | CompositeLit (Typ : expr)
  | ParenExpr (X : expr)
  | SelectorExpr (X : expr) (Sel : string)
  | IndexExpr (X Index : expr)
  | CallExpr (Fun : expr) (Args : list expr)
  | StarExpr (X : expr)
  | BinaryExpr (X : expr) (Op : token) (Y : expr)
  | ArrayType (Len : option expr) (Elt : expr)
  | StructType (Fields : list Field)
  | FuncType (Params Results : list Field)
  | InterfaceType (Methods : list Field)
  | MapType (Key Value : expr)
  | ChanType (Value : expr)
with Field : Type :=
  | mkField (Names : list string) (Typ : expr).

Definition Names (f : Field) : list string :=
  match f with mkField ns _ => ns end.

Definition FieldType (f : Field) : expr :=
  match f with mkField _ t => t end.

(** ** go/ast declarations and statements *)

Record ValueSpec : Type := mkValueSpec {
  SpecNames : list string;
  SpecType : option expr;
  SpecValues : list expr
}.

Record GenDecl : Type := mkGenDecl {
  DeclTok : token;
  Specs : list ValueSpec
}.

(** [Body] is the [List] of the statement's [BlockStmt]. *)
Inductive stmt : Type :=
  | DeclStmt (Decl : GenDecl)
  | AssignStmt (Lhs : list expr) (Tok : token) (Rhs : list expr)
  | IncDecStmt (X : expr) (Tok : token)
  | IfStmt (Init : option stmt) (Cond : expr) (Body : list stmt)
           (Else : option stmt)
  | ForStmt (Init : option stmt) (Cond : option expr) (Post : option stmt)
            (Body : list stmt).

(** ** Errors, panics and results

    [fmt.Errorf] renders its arguments into a message; the embedding keeps
    one constructor per format string of the source, with the arguments
    unrendered, the wrapped error last:
    - [UnresolvedIdentifier]: Unresolved identifier: %v
    - [UnresolvedPointerElement]: Unresolved pointer element type %v: %v
    - [UnresolvedArrayElement]: Unresolved array element type %v: %v
    - [UnresolvedStructField]: Unresolved struct field type %v: %v
    - [UnresolvedArgument]: Unresolved argument %s type %v: %v
    [NotFound] is the error of the alias lookup.  The one panic of the
    source carries the error Unrecognized native type : %v. *)

Inductive error : Type :=
  | NotFound (name : string)
  | UnresolvedIdentifier (cause : error)
  | UnresolvedPointerElement (X : expr) (cause : error)
  | UnresolvedArrayElement (Elt : expr) (cause : error)
  | UnresolvedStructField (Typ : expr) (cause : error)
  | UnresolvedArgument (name : string) (Typ : expr) (cause : error).

Inductive panic_value : Type :=
  | UnrecognizedNativeType (nativeType : expr)
  | IndexOutOfRange (index len : nat).

(** What a call does: it returns, it panics, or the recursion budget of
    the model is used up (a cyclic alias table makes the Go code recurse
    without end). *)
Inductive outcome (A : Type) : Type :=
  | Returns (a : A)
  | Panics (v : panic_value)
  | OutOfFuel.

Arguments Returns {A} a.
Arguments Panics {A} v.
Arguments OutOfFuel {A}.

(** Sequencing: a panic or an exhausted budget of the first call ends
    the caller too. *)
#[export] Instance outcome_bind : MBind outcome := fun A B k m =>
  match m with
  | Returns a => k a
  | Panics v => Panics v
  | OutOfFuel => OutOfFuel
  end.

(** The Go triple [(ast.Expr, []ast.Stmt, error)]: a nil expression and a
    nil error are [None], a nil slice is the empty list. *)
Definition result : Type := option expr * list stmt * option error.

(** ** The generator and its alias table *)

Record generator : Type := mkGenerator {
  typeAliases : gmap string expr
}.

(** Modelled from the spec: [getTypeAlias] is a method of the generator
    that is not among the source files.  The spec gives it as the Alias
    Table lookup, [lookup(name) -> TypeShape], failing with NotFound, and
    has the unresolved identifier reported with the offending name. *)
Definition getTypeAlias (gen : generator) (name : string) : expr + error :=
  match typeAliases gen !! name with
  | Some nativeType => inl nativeType
  | None => inr (NotFound name)
  end.

(** The signature shared by [ResolveValue] and the four resolvers:
    [name], [jsValue], [nativeType], [dst]. *)
Definition resolver_fn : Type :=
  string -> expr -> expr -> option expr -> outcome result.

(** ** resolveIdent *)

Definition integerNames : list string :=
  ["int"; "int8"; "int16"; "int32"; "rune"; "int64";
   "uint"; "uint8"; "byte"; "uint16"; "uint32"; "uint64"; "uintptr"].

Definition floatNames : list string := ["float32"; "float64"].

Definition oneOf (s : string) (l : list string) : bool :=
  existsb (String.eqb s) l.

(** The [switch] on [typeStr]: [Some (method, typeCast)] for the four
    scalar cases, [None] for [default]. *)
Definition scalarCase (typeStr : string) : option (string * string) :=
  if String.eqb typeStr "bool" then Some ("Bool", "")
  else if String.eqb typeStr "string" then Some ("String", "")
  else if oneOf typeStr integerNames then
    Some ("Int", if String.eqb typeStr "int" then "" else typeStr)
  else if oneOf typeStr floatNames then
    Some ("Float", if String.eqb typeStr "float64" then "" else typeStr)
  else None.

Definition resolveIdent (gen : generator) (ResolveValue : resolver_fn)
    (name : string) (jsValue : expr) (nativeType : string)
    (dst : option expr) : outcome result :=
  let typeStr := nativeType in
  match scalarCase typeStr with
  | None =>
      match getTypeAlias gen typeStr with
      | inr err => Returns (None, [], Some (UnresolvedIdentifier err))
      | inl nativeType => ResolveValue typeStr jsValue nativeType dst
      end
  | Some (method, typeCast) =>
      let expr := CallExpr (SelectorExpr jsValue method) [] in
      let expr :=
        if String.eqb typeCast "" then expr
        else CallExpr (Ident typeCast) [expr] in
      match dst with
      | Some dst =>
          Returns (Some dst, [AssignStmt [dst] ASSIGN [expr]], None)
      | None => Returns (Some expr, [], None)
      end
  end.

(** ** resolvePointer *)

Definition resolvePointer (ResolveValue : resolver_fn)
    (name : string) (jsValue : expr) (X : expr)
    (dst : option expr) : outcome result :=
  let nativeType := StarExpr X in
  let '(dst, resolver) :=
    match dst with
    | None =>
        (Ident name,
         [DeclStmt (mkGenDecl VAR [mkValueSpec [name] (Some nativeType) []])])
    | Some dst => (dst, [])
    end in
  '(_, eltResolver, err) ← ResolveValue (name +:+ "Elt") jsValue X (Some dst);
  match err with
  | Some err => Returns (None, [], Some (UnresolvedPointerElement X err))
  | None =>
      Returns
        (Some dst,
         resolver ++
         [IfStmt
            (Some (AssignStmt [Ident "jsType"] DEFINE
                     [CallExpr (SelectorExpr jsValue "Type") []]))
            (BinaryExpr
               (BinaryExpr (Ident "jsType") NEQ
                  (SelectorExpr (Ident "js") "TypeUndefined"))
               LOR
               (BinaryExpr (Ident "jsType") NEQ
                  (SelectorExpr (Ident "js") "TypeNull")))
            eltResolver
            None],
         None)
  end.

(** ** resolveArray *)

Definition resolveArray (ResolveValue : resolver_fn)
    (name : string) (jsValue : expr) (Len : option expr) (Elt : expr)
    (dst : option expr) : outcome result :=
  let nativeType := ArrayType Len Elt in
  let '(lenExpr, resolver) :=
    match Len with
    | None =>
        let lenExpr := Ident (name +:+ "Len") in
        (lenExpr,
         [AssignStmt [lenExpr] DEFINE
            [CallExpr (SelectorExpr jsValue "Length") []]])
    | Some lenExpr => (lenExpr, [])
    end in
  let '(dst, resolver) :=
    match dst with
    | None =>
        (Ident name,
         match Len with
         | None =>
             resolver ++
             [AssignStmt [Ident name] DEFINE
                [CallExpr (Ident "make") [nativeType; lenExpr]]]
         | Some _ =>
             resolver ++
             [DeclStmt
                (mkGenDecl VAR [mkValueSpec [name] (Some nativeType) []])]
         end)
    | Some dst => (dst, resolver)
    end in
  let idxIdent := Ident (name +:+ "Idx") in
  '(_, eltResolver, err) ←
    ResolveValue (name +:+ "Elt")
      (CallExpr (SelectorExpr jsValue "Index") [idxIdent])
      Elt
      (Some (IndexExpr dst idxIdent));
  match err with
  | Some err => Returns (None, [], Some (UnresolvedArrayElement Elt err))
  | None =>
      Returns
        (Some dst,
         resolver ++
         [ForStmt
            (Some (AssignStmt [idxIdent] DEFINE [BasicLit INT "0"]))
            (Some (BinaryExpr idxIdent LSS lenExpr))
            (Some (IncDecStmt idxIdent INC))
            eltResolver],
         None)
  end.

(** ** resolveStruct

    The two nested [for] loops, with their early [return]: a loop step
    gives either the error to return at once or the statements gathered
    so far. *)

Fixpoint structNamesLoop (ResolveValue : resolver_fn)
    (name : string) (jsValue : expr) (dst : expr) (fieldType : expr)
    (fieldNames : list string) (resolver : list stmt)
    : outcome (error + list stmt) :=
  match fieldNames with
  | [] => Returns (inr resolver)
  | fieldName :: rest =>
      '(_, fieldResolver, err) ←
        ResolveValue (name +:+ fieldName)
          (CallExpr (SelectorExpr jsValue "Get") [Ident fieldName])
          fieldType
          (Some (SelectorExpr dst fieldName));
      match err with
      | Some err => Returns (inl (UnresolvedStructField fieldType err))
      | None =>
          structNamesLoop ResolveValue name jsValue dst fieldType rest
            (resolver ++ fieldResolver)
      end
  end.

Fixpoint structFieldsLoop (ResolveValue : resolver_fn)
    (name : string) (jsValue : expr) (dst : expr)
    (fields : list Field) (resolver : list stmt)
    : outcome (error + list stmt) :=
  match fields with
  | [] => Returns (inr resolver)
  | field :: rest =>
      r ← structNamesLoop ResolveValue name jsValue dst (FieldType field)
             (Names field) resolver;
      match r with
      | inl err => Returns (inl err)
      | inr resolver =>
          structFieldsLoop ResolveValue name jsValue dst rest resolver
      end
  end.

Definition resolveStruct (ResolveValue : resolver_fn)
    (name : string) (jsValue : expr) (Fields : list Field)
    (dst : option expr) : outcome result :=
  let nativeType := StructType Fields in
  let '(dst, resolver) :=
    match dst with
    | None =>
        (Ident name,
         [AssignStmt [Ident name] DEFINE [CompositeLit nativeType]])
    | Some dst => (dst, [])
    end in
  r ← structFieldsLoop ResolveValue name jsValue dst Fields resolver;
  match r with
  | inl err => Returns (None, [], Some err)
  | inr resolver => Returns (Some dst, resolver, None)
  end.

(** ** ResolveValue

    The type switch.  The four resolvers call back into [ResolveValue];
    [fuel] bounds the depth of those nested calls, so the switch itself
    runs at every [fuel] and only a call nested deeper than [fuel] is cut
    off. *)

Definition dispatch (gen : generator) (rec : resolver_fn)
    (name : string) (jsValue : expr) (nativeType : expr)
    (dst : option expr) : outcome result :=
  match nativeType with
  | Ident typeStr => resolveIdent gen rec name jsValue typeStr dst
  | StarExpr X => resolvePointer rec name jsValue X dst
  | ArrayType Len Elt => resolveArray rec name jsValue Len Elt dst
  | StructType Fields => resolveStruct rec name jsValue Fields dst
  | _ => Panics (UnrecognizedNativeType nativeType)
  end.

Fixpoint ResolveValue (gen : generator) (fuel : nat) : resolver_fn :=
  match fuel with
  | O => dispatch gen (fun _ _ _ _ => OutOfFuel)
  | S fuel => dispatch gen (ResolveValue gen fuel)
  end.

(** ** resolveFuncArgs *)

(** [NumFields] of a go/ast field list: an entry without names counts
    for one. *)
Definition NumFields (params : list Field) : nat :=
  fold_left
    (fun n g => let m := length (Names g) in n + (if Nat.eqb m 0 then 1 else m))
    params 0.

(** [strconv.Itoa] on the non-negative counter [i]. *)
Definition Itoa (i : nat) : string := pretty i.

(** The state of the loops: the counter [i], the slice [args] (a slot
    not yet written is nil) and the statements gathered in [resolvers].
    Storing into [args] past its length is Go's index panic; it is raised
    when the call has returned and its results are assigned. *)
Definition args_state : Type := nat * list (option expr) * list stmt.

Fixpoint paramNamesLoop (ResolveValue : resolver_fn)
    (paramType : expr) (names : list string) (st : args_state)
    : outcome (error + args_state) :=
  match names with
  | [] => Returns (inr st)
  | name :: rest =>
      let '(i, args, resolvers) := st in
      '(e, resolver, err) ←
        ResolveValue name
          (IndexExpr (Ident "args") (BasicLit INT (Itoa i)))
          paramType
          None;
      if decide (i < length args) then
        match err with
        | Some err => Returns (inl (UnresolvedArgument name paramType err))
        | None =>
            paramNamesLoop ResolveValue paramType rest
              (S i, <[i := e]> args, resolvers ++ resolver)
        end
      else Panics (IndexOutOfRange i (length args))
  end.

Fixpoint paramsLoop (ResolveValue : resolver_fn)
    (params : list Field) (st : args_state)
    : outcome (error + args_state) :=
  match params with
  | [] => Returns (inr st)
  | param :: rest =>
      r ← paramNamesLoop ResolveValue (FieldType param) (Names param) st;
      match r with
      | inl err => Returns (inl err)
      | inr st => paramsLoop ResolveValue rest st
      end
  end.

(** The Go triple [([]ast.Expr, []ast.Stmt, error)]. *)
Definition args_result : Type :=
  list (option expr) * list stmt * option error.

Definition resolveFuncArgsWith (ResolveValue : resolver_fn)
    (params : list Field) : outcome args_result :=
  let args := replicate (NumFields params) (None : option expr) in
  r ← paramsLoop ResolveValue params (0, args, []);
  match r with
  | inl err => Returns ([], [], Some err)
  | inr (_, args, resolvers) => Returns (args, resolvers, None)
  end.

Definition resolveFuncArgs (gen : generator) (fuel : nat)
    (params : list Field) : outcome args_result :=
  resolveFuncArgsWith (ResolveValue gen fuel) params.

(** ** The guard at run time

    What the generated guard of [resolvePointer] does when it runs: the
    kinds of [syscall/js], and Go's reading of the comparison and logical
    operators over them, with [jsType] bound to the kind of the source. *)

Inductive jsKind : Set :=
  | TypeUndefined | TypeNull | TypeBoolean | TypeNumber
  | TypeString | TypeSymbol | TypeObject | TypeFunction.

Definition jsKind_eqb (a b : jsKind) : bool :=
  match a, b with
  | TypeUndefined, TypeUndefined | TypeNull, TypeNull
  | TypeBoolean, TypeBoolean | TypeNumber, TypeNumber
  | TypeString, TypeString | TypeSymbol, TypeSymbol
  | TypeObject, TypeObject | TypeFunction, TypeFunction => true
  | _, _ => false
  end.

Definition jsConstant (Sel : string) : option jsKind :=
  if String.eqb Sel "TypeUndefined" then Some TypeUndefined
  else if String.eqb Sel "TypeNull" then Some TypeNull
  else if String.eqb Sel "TypeBoolean" then Some TypeBoolean
  else if String.eqb Sel "TypeNumber" then Some TypeNumber
  else if String.eqb Sel "TypeString" then Some TypeString
  else if String.eqb Sel "TypeSymbol" then Some TypeSymbol
  else if String.eqb Sel "TypeObject" then Some TypeObject
  else if String.eqb Sel "TypeFunction" then Some TypeFunction
  else None.

Definition evalKind (jsType : jsKind) (e : expr) : option jsKind :=
  match e with
  | Ident x => if String.eqb x "jsType" then Some jsType else None
  | SelectorExpr (Ident pkg) Sel =>
      if String.eqb pkg "js" then jsConstant Sel else None
  | _ => None
  end.

Fixpoint evalCond (jsType : jsKind) (e : expr) : option bool :=
  match e with
  | ParenExpr X => evalCond jsType X
  | BinaryExpr X EQL Y =>
      a ← evalKind jsType X; b ← evalKind jsType Y; Some (jsKind_eqb a b)
  | BinaryExpr X NEQ Y =>
      a ← evalKind jsType X; b ← evalKind jsType Y;
      Some (negb (jsKind_eqb a b))
  | BinaryExpr X LAND Y =>
      a ← evalCond jsType X; if a : bool then evalCond jsType Y else Some false
  | BinaryExpr X LOR Y =>
      a ← evalCond jsType X; if a : bool then Some true else evalCond jsType Y
  | _ => None
  end.

(** Whether the block of a guard statement runs when the source has the
    kind [k]. *)
Definition guardRuns (k : jsKind) (s : stmt) : option bool :=
  match s with
  | IfStmt _ Cond _ _ => evalCond k Cond
  | _ => None
  end.

(** ** Vocabulary of the statements about the resolvers *)

(** The call [jsValue.method()]. *)
Definition readAs (jsValue : expr) (method : string) : expr :=
  CallExpr (SelectorExpr jsValue method) [].

(** The conversion [typeName(e)]. *)
Definition castTo (typeName : string) (e : expr) : expr :=
  CallExpr (Ident typeName) [e].

(** How a converted scalar [conv] is handed back: assigned to the
    destination when there is one, returned as it is otherwise. *)
Definition delivered (dst : option expr) (conv : expr) : outcome result :=
  match dst with
  | Some d => Returns (Some d, [AssignStmt [d] ASSIGN [conv]], None)
  | None => Returns (Some conv, [], None)
  end.

(** The destination a composite resolver works on: the one supplied, or
    the local it declares under [name]. *)
Definition destination (name : string) (dst : option expr) : expr :=
  match dst with
  | Some d => d
  | None => Ident name
  end.

(** The declaration [var name nativeType]. *)
Definition varDecl (name : string) (nativeType : expr) : stmt :=
  DeclStmt (mkGenDecl VAR [mkValueSpec [name] (Some nativeType) []]).

(** The names of a field list with their types, one entry per name, in
    declaration order; an entry without names contributes nothing. *)
Definition namedEntries (fields : list Field) : list (string * expr) :=
  flat_map (fun f => map (fun n => (n, FieldType f)) (Names f)) fields.

(** The guard [resolvePointer] puts around the statements of the pointee:
    [if jsType := jsValue.Type();
        jsType != js.TypeUndefined || jsType != js.TypeNull { body }]. *)
Definition kindGuard (jsValue : expr) (body : list stmt) : stmt :=
  IfStmt
    (Some (AssignStmt [Ident "jsType"] DEFINE [readAs jsValue "Type"]))
    (BinaryExpr
       (BinaryExpr (Ident "jsType") NEQ
          (SelectorExpr (Ident "js") "TypeUndefined"))
       LOR
       (BinaryExpr (Ident "jsType") NEQ
          (SelectorExpr (Ident "js") "TypeNull")))
    body None.

(** The statement [lenVar := jsValue.Length()]. *)
Definition lengthQuery (lenVar : string) (jsValue : expr) : stmt :=
  AssignStmt [Ident lenVar] DEFINE [readAs jsValue "Length"].

(** The loop [for counter := 0; counter < bound; counter++ { body }]. *)
Definition countedLoop (counter : string) (bound : expr)
    (body : list stmt) : stmt :=
  ForStmt
    (Some (AssignStmt [Ident counter] DEFINE [BasicLit INT "0"]))
    (Some (BinaryExpr (Ident counter) LSS bound))
    (Some (IncDecStmt (Ident counter) INC))
    body.

(** A statement that binds the result of a [Length] call. *)
Definition isLengthQuery (s : stmt) : bool :=
  match s with
  | AssignStmt _ _ [CallExpr (SelectorExpr _ Sel) []] => String.eqb Sel "Length"
  | _ => false
  end.

Definition isLoop (s : stmt) : bool :=
  match s with
  | ForStmt _ _ _ _ => true
  | _ => false
  end.

(** The bound of the loop over a sequence: its fixed length, or the
    local that holds the queried length. *)
Definition sequenceBound (name : string) (Len : option expr) : expr :=
  match Len with
  | Some l => l
  | None => Ident (name +:+ "Len")
  end.

(** The statement that makes the destination of a sequence:
    [name := make(nativeType, nameLen)] for a slice, [var name nativeType]
    for an array. *)
Definition sequenceAllocation (name : string) (Len : option expr)
    (Elt : expr) : stmt :=
  match Len with
  | None =>
      AssignStmt [Ident name] DEFINE
        [CallExpr (Ident "make")
           [ArrayType Len Elt; Ident (name +:+ "Len")]]
  | Some _ => varDecl name (ArrayType Len Elt)
  end.

(** What a resolver emits before its main statement, depending on the
    destination and on the length: the declaration of the pointer local,
    the length query of a slice, the storage of a sequence. *)
Definition pointerDeclaration (name : string) (X : expr)
    (dst : option expr) : list stmt :=
  match dst with
  | None => [varDecl name (StarExpr X)]
  | Some _ => []
  end.

Definition sequenceQuery (name : string) (jsValue : expr)
    (Len : option expr) : list stmt :=
  match Len with
  | None => [lengthQuery (name +:+ "Len") jsValue]
  | Some _ => []
  end.

Definition sequenceStorage (name : string) (Len : option expr) (Elt : expr)
    (dst : option expr) : list stmt :=
  match dst with
  | None => [sequenceAllocation name Len Elt]
  | Some _ => []
  end.

(** The source of element [counter] of a sequence, of field [fieldName]
    of a record, and of argument [i] of the call. *)
Definition elementSource (jsValue : expr) (counter : string) : expr :=
  CallExpr (SelectorExpr jsValue "Index") [Ident counter].

Definition fieldSource (jsValue : expr) (fieldName : string) : expr :=
  CallExpr (SelectorExpr jsValue "Get") [Ident fieldName].

Definition argumentSource (i : nat) : expr :=
  IndexExpr (Ident "args") (BasicLit INT (Itoa i)).

(** [aliasesTo gen target s n]: [s] reaches the name [target] through [n]
    entries of the alias table, every name on the way being one the
    resolver looks up, that is, none of its scalar names. *)
Inductive aliasesTo (gen : generator) (target : string)
  : string -> nat -> Prop :=
  | aliasesTo_last s :
      scalarCase s = None ->
      typeAliases gen !! s = Some (Ident target) ->
      aliasesTo gen target s 1
  | aliasesTo_next s via n :
      scalarCase s = None ->
      typeAliases gen !! s = Some (Ident via) ->
      aliasesTo gen target via n ->
      aliasesTo gen target s (S n).

(** The four variants the type switch of [ResolveValue] handles. *)
Definition handledVariant (nativeType : expr) : bool :=
  match nativeType with
  | Ident _ | StarExpr _ | ArrayType _ _ | StructType _ => true
  | _ => false
  end.

(** A type built from the four variants only, all the way down. *)
Fixpoint closedShape (nativeType : expr) : bool :=
  match nativeType with
  | Ident _ => true
  | StarExpr X => closedShape X
  | ArrayType _ Elt => closedShape Elt
  | StructType Fields =>
      forallb (fun f => match f with mkField _ t => closedShape t end) Fields
  | _ => false
  end.

(** An alias table whose entries are all such types. *)
Definition closedAliases (gen : generator) : Prop :=
  map_Forall (fun _ t => closedShape t = true) (typeAliases gen).

(** The reading of the pointer resolver under which the pointee is
    resolved against the dereferenced destination: the guarded block is
    what the inner type yields when it writes to [*name]. *)
Definition innerAgainstPointee (gen : generator) (fuel : nat)
    (name : string) (jsValue : expr) (X : expr) : Prop :=
  forall e body,
    ResolveValue gen fuel (name +:+ "Elt") jsValue X
      (Some (StarExpr (Ident name))) = Returns (e, body, None) ->
    exists pre init cond els,
      ResolveValue gen (S fuel) name jsValue (StarExpr X) None =
      Returns (Some (Ident name), pre ++ [IfStmt init cond body els], None).

(** ** The loops over named entries

    The nested loops of [resolveStruct] and [resolveFuncArgs] visit the
    names of a field list one after the other; the same loops written
    over [namedEntries]. *)

Fixpoint recordEntriesLoop (ResolveValue : resolver_fn)
    (name : string) (jsValue : expr) (dst : expr)
    (entries : list (string * expr)) (resolver : list stmt)
    : outcome (error + list stmt) :=
  match entries with
  | [] => Returns (inr resolver)
  | (fieldName, fieldType) :: rest =>
      '(_, fieldResolver, err) ←
        ResolveValue (name +:+ fieldName) (fieldSource jsValue fieldName)
          fieldType (Some (SelectorExpr dst fieldName));
      match err with
      | Some err => Returns (inl (UnresolvedStructField fieldType err))
      | None =>
          recordEntriesLoop ResolveValue name jsValue dst rest
            (resolver ++ fieldResolver)
      end
  end.

Fixpoint argEntriesLoop (ResolveValue : resolver_fn)
    (entries : list (string * expr)) (st : args_state)
    : outcome (error + args_state) :=
  match entries with
  | [] => Returns (inr st)
  | (name, paramType) :: rest =>
      let '(i, args, resolvers) := st in
      '(e, resolver, err) ←
        ResolveValue name (argumentSource i) paramType None;
      if decide (i < length args) then
        match err with
        | Some err => Returns (inl (UnresolvedArgument name paramType err))
        | None =>
            argEntriesLoop ResolveValue rest
              (S i, <[i := e]> args, resolvers ++ resolver)
        end
      else Panics (IndexOutOfRange i (length args))
  end.

(** The statement that makes the destination of a record when none is
    supplied: [name := nativeType{}]. *)
Definition recordAllocation (name : string) (dst : option expr)
    (Fields : list Field) : list stmt :=
  match dst with
  | None => [AssignStmt [Ident name] DEFINE [CompositeLit (StructType Fields)]]
  | Some _ => []
  end.

(** Field [entry] of a record named [name], read from [jsValue] into the
    record [dst], resolves to the statements [body]. *)
Definition fieldResolved (ResolveValue : resolver_fn)
    (name : string) (jsValue : expr) (dst : expr)
    (entry : string * expr) (body : list stmt) : Prop :=
  exists e,
    ResolveValue (name +:+ entry.1) (fieldSource jsValue entry.1) entry.2
      (Some (SelectorExpr dst entry.1)) = Returns (e, body, None).

(** Parameter [i], of name and type [entry], resolves without a
    destination to the expression and statements of [res]. *)
Definition argumentResolved (ResolveValue : resolver_fn)
    (i : nat) (entry : string * expr) (res : option expr * list stmt)
    : Prop :=
  ResolveValue entry.1 (argumentSource i) entry.2 None =
    Returns (res.1, res.2, None).

(** The parameters [entries], numbered from [i] on, resolve one by one
    to [results]. *)
Inductive argumentsResolved (ResolveValue : resolver_fn)
  : nat -> list (string * expr) -> list (option expr * list stmt) -> Prop :=
  | argumentsResolved_nil i : argumentsResolved ResolveValue i [] []
  | argumentsResolved_cons i entry res entries results :
      argumentResolved ResolveValue i entry res ->
      argumentsResolved ResolveValue (S i) entries results ->
      argumentsResolved ResolveValue i (entry :: entries) (res :: results).

(** A result without its first statement. *)
Definition afterFirstStatement (r : outcome result) : outcome result :=
  match r with
  | Returns (e, stmts, err) => Returns (e, drop 1 stmts, err)
  | Panics v => Panics v
  | OutOfFuel => OutOfFuel
  end.

(** A resolver that, when it returns an error, returns nothing else. *)
Definition cleanFailure (rv : resolver_fn) : Prop :=
  forall name jsValue nativeType dst e stmts err,
    rv name jsValue nativeType dst = Returns (e, stmts, Some err) ->
    e = None /\ stmts = [].

(** A resolver whose only panic is the one of the type switch, raised on
    a type outside the four variants. *)
Definition panicsOnUnhandledOnly (rv : resolver_fn) : Prop :=
  forall name jsValue nativeType dst v,
    rv name jsValue nativeType dst = Panics v ->
    exists T, v = UnrecognizedNativeType T /\ handledVariant T = false.

(** A resolver that does not panic on a type built from the four
    variants. *)
Definition safeOnClosedShapes (rv : resolver_fn) : Prop :=
  forall name jsValue nativeType dst v,
    closedShape nativeType = true ->
    rv name jsValue nativeType dst <> Panics v.

(** ** The depth budget *)

(** [rv2] does whatever [rv1] does when [rv1] is not cut off. *)
Definition extends (rv1 rv2 : resolver_fn) : Prop :=
  forall name jsValue nativeType dst r,
    rv1 name jsValue nativeType dst = r ->
    r <> OutOfFuel ->
    rv2 name jsValue nativeType dst = r.

(** The nesting depth of a type: the number of pointer, sequence and
    record constructors on its longest path. *)
Fixpoint depth (nativeType : expr) : nat :=
  match nativeType with
  | StarExpr X => S (depth X)
  | ArrayType _ Elt => S (depth Elt)
  | StructType Fields =>
      S (fold_right
           (fun f m => Nat.max (match f with mkField _ t => depth t end) m)
           0 Fields)
  | _ => 0
  end.

(** A type none of whose identifiers has an entry the resolver would
    follow: each is a scalar name or is absent from the alias table. *)
Fixpoint aliasFree (gen : generator) (nativeType : expr) : bool :=
  match nativeType with
  | Ident s =>
      match scalarCase s, typeAliases gen !! s with
      | None, Some _ => false
      | _, _ => true
      end
  | StarExpr X => aliasFree gen X
  | ArrayType _ Elt => aliasFree gen Elt
  | StructType Fields =>
      forallb (fun f => match f with mkField _ t => aliasFree gen t end) Fields
  | _ => true
  end.

(** A resolver that is not cut off on the alias-free types of depth at
    most [n]. *)
Definition completeTo (gen : generator) (n : nat) (rv : resolver_fn) : Prop :=
  forall name jsValue nativeType dst,
    aliasFree gen nativeType = true ->
    depth nativeType <= n ->
    rv name jsValue nativeType dst <> OutOfFuel.

(** ** Sample inputs *)

Definition sampleGen : generator :=
  mkGenerator (<["Celsius" := Ident "Degrees"]>
                 (<["Degrees" := Ident "int32"]> ∅)).

Definition sampleRecord : expr :=
  StructType
    [mkField ["Count"] (Ident "int32");
     mkField [] (MapType (Ident "string") (Ident "int"));
     mkField ["Items"] (StarExpr (ArrayType None (Ident "string")))].

Definition sampleParams : list Field :=
  [mkField ["x"] (Ident "bool"); mkField ["y"] (Ident "string")].


(** ** Vocabulary of the further properties *)

(** The three variants resolved by a resolver that works on a
    destination of its own. *)
Definition isComposite (nativeType : expr) : bool :=
  match nativeType with
  | StarExpr _ | ArrayType _ _ | StructType _ => true
  | _ => false
  end.

(** A resolver whose successful results name a final reference: the
    destination when one was supplied. *)
Definition returnsDestination (rv : resolver_fn) : Prop :=
  forall name jsValue nativeType dst e stmts,
    rv name jsValue nativeType dst = Returns (e, stmts, None) ->
    is_Some e /\ (forall d, dst = Some d -> e = Some d).

(** The error at the bottom of a chain of wrapped errors. *)
Fixpoint rootCause (err : error) : error :=
  match err with
  | UnresolvedPointerElement _ cause
  | UnresolvedArrayElement _ cause
  | UnresolvedStructField _ cause
  | UnresolvedArgument _ _ cause => rootCause cause
  | NotFound _ | UnresolvedIdentifier _ => err
  end.

(** An error that goes back to a failed lookup of a name the resolver
    had to look up. *)
Definition fromFailedLookup (gen : generator) (err : error) : Prop :=
  exists typeStr lookupErr,
    scalarCase typeStr = None
    /\ getTypeAlias gen typeStr = inr lookupErr
    /\ rootCause err = UnresolvedIdentifier lookupErr.

Definition failsFromLookupOnly (gen : generator) (rv : resolver_fn) : Prop :=
  forall name jsValue nativeType dst e stmts err,
    rv name jsValue nativeType dst = Returns (e, stmts, Some err) ->
    fromFailedLookup gen err.

(** What is left of a result when the generated code is set aside: the
    error or its absence, the panic, the cut-off. *)
Definition verdict (r : outcome result) : outcome (option error) :=
  match r with
  | Returns (_, _, err) => Returns err
  | Panics v => Panics v
  | OutOfFuel => OutOfFuel
  end.

Definition loopVerdict {A : Type} (r : outcome (error + A))
  : outcome (option error) :=
  match r with
  | Returns (inl err) => Returns (Some err)
  | Returns (inr _) => Returns None
  | Panics v => Panics v
  | OutOfFuel => OutOfFuel
  end.

(** The verdict of a composite resolver from the verdict of its child:
    an error is wrapped, the rest goes through. *)
Definition wrapVerdict (wrap : error -> error) (v : outcome (option error))
  : outcome (option error) :=
  match v with
  | Returns (Some err) => Returns (Some (wrap err))
  | other => other
  end.

(** A resolver whose verdict depends on the type alone, not on the name,
    the source or the destination it is given. *)
Definition handleBlind (rv : resolver_fn) : Prop :=
  forall nativeType name jsValue dst name' jsValue' dst',
    verdict (rv name jsValue nativeType dst) =
    verdict (rv name' jsValue' nativeType dst').

(** The statements that make storage: a [var] declaration, and a short
    variable declaration from [make] or from a composite literal. *)
Definition makesStorage (s : stmt) : bool :=
  match s with
  | DeclStmt _ => true
  | AssignStmt _ DEFINE [CallExpr (Ident f) _] => String.eqb f "make"
  | AssignStmt _ DEFINE [CompositeLit _] => true
  | _ => false
  end.

(** How many such statements a statement holds, itself and the blocks
    and clauses nested in it included. *)
Fixpoint storageCount (s : stmt) : nat :=
  match s with
  | IfStmt Init _ Body Else =>
      match Init with Some i => storageCount i | None => 0 end +
      list_sum (map storageCount Body) +
      match Else with Some e => storageCount e | None => 0 end
  | ForStmt Init _ Post Body =>
      match Init with Some i => storageCount i | None => 0 end +
      match Post with Some p => storageCount p | None => 0 end +
      list_sum (map storageCount Body)
  | _ => if makesStorage s then 1 else 0
  end.

Definition storageTotal (stmts : list stmt) : nat :=
  list_sum (map storageCount stmts).

(** A resolver that makes no storage when it is given a destination. *)
Definition fillsDestination (rv : resolver_fn) : Prop :=
  forall name jsValue nativeType d e stmts,
    rv name jsValue nativeType (Some d) = Returns (e, stmts, None) ->
    storageTotal stmts = 0.

(** [resolvesVia gen s n last T]: following the alias table from the
    name [s] through [n] entries, each name on the way being one the
    resolver looks up, ends with the entry [T] of the name [last]. *)
Inductive resolvesVia (gen : generator)
  : string -> nat -> string -> expr -> Prop :=
  | resolvesVia_entry s T :
      scalarCase s = None ->
      typeAliases gen !! s = Some T ->
      resolvesVia gen s 1 s T
  | resolvesVia_next s via n last T :
      scalarCase s = None ->
      typeAliases gen !! s = Some (Ident via) ->
      resolvesVia gen via n last T ->
      resolvesVia gen s (S n) last T.

(** [n] levels of pointer around [X], the statements [body] under [n]
    guards on [jsValue], and the name handed down [n] levels. *)
Fixpoint pointerTo (n : nat) (X : expr) : expr :=
  match n with
  | O => X
  | S n => StarExpr (pointerTo n X)
  end.

Fixpoint guarded (n : nat) (jsValue : expr) (body : list stmt) : list stmt :=
  match n with
  | O => body
  | S n => [kindGuard jsValue (guarded n jsValue body)]
  end.

Fixpoint eltName (n : nat) (name : string) : string :=
  match n with
  | O => name
  | S n => eltName n (name +:+ "Elt")
  end.
(** * Properties of the resolvers *)

(** ** The scalar resolver *)

Section Scalars.
Variable gen : generator.
Variable rv : resolver_fn.
Variables (name : string) (jsValue : expr) (dst : option expr).

Lemma resolveIdent_scalarCase typeStr method typeCast :
  scalarCase typeStr = Some (method, typeCast) ->
  resolveIdent gen rv name jsValue typeStr dst =
  delivered dst
    (if String.eqb typeCast "" then readAs jsValue method
     else castTo typeCast (readAs jsValue method)).
Proof.
  intros Hcase. unfold resolveIdent. rewrite Hcase.
  destruct dst; reflexivity.
Qed.

Lemma resolveIdent_alias typeStr nativeType :
  scalarCase typeStr = None ->
  typeAliases gen !! typeStr = Some nativeType ->
  resolveIdent gen rv name jsValue typeStr dst =
  rv typeStr jsValue nativeType dst.
Proof.
  intros Hcase Hlook. unfold resolveIdent, getTypeAlias.
  rewrite Hcase, Hlook. reflexivity.
Qed.

Lemma resolveIdent_absent typeStr :
  scalarCase typeStr = None ->
  typeAliases gen !! typeStr = None ->
  resolveIdent gen rv name jsValue typeStr dst =
  Returns (None, [], Some (UnresolvedIdentifier (NotFound typeStr))).
Proof.
  intros Hcase Hlook. unfold resolveIdent, getTypeAlias.
  rewrite Hcase, Hlook. reflexivity.
Qed.
End Scalars.

Lemma ResolveValue_unfold gen fuel :
  ResolveValue gen fuel =
  dispatch gen
    (match fuel with
     | O => fun _ _ _ _ => OutOfFuel
     | S fuel' => ResolveValue gen fuel'
     end).
Proof. destruct fuel; reflexivity. Qed.

Lemma ResolveValue_Ident gen fuel name jsValue typeStr dst :
  ResolveValue gen fuel name jsValue (Ident typeStr) dst =
  resolveIdent gen
    (match fuel with
     | O => fun _ _ _ _ => OutOfFuel
     | S fuel' => ResolveValue gen fuel'
     end) name jsValue typeStr dst.
Proof. rewrite ResolveValue_unfold. reflexivity. Qed.

(** Closes a goal about a literal scalar name by running the switch. *)
Ltac scalar_case :=
  erewrite resolveIdent_scalarCase by reflexivity; reflexivity.

(** C6.  A named scalar is read with the accessor of its family: [Bool]
    for bool, [String] for string, [Int] for every integer name, cast to
    the name unless it is int, and [Float] for the two floating-point
    names, cast unless it is float64.  With a destination the result is
    the single assignment of that expression to the destination, which is
    returned; without one the expression is returned and no statement is
    emitted.  This holds at every depth budget. *)
Theorem ResolveValue_named_scalar gen fuel name jsValue dst :
  ResolveValue gen fuel name jsValue (Ident "bool") dst =
    delivered dst (readAs jsValue "Bool")
  /\ ResolveValue gen fuel name jsValue (Ident "string") dst =
    delivered dst (readAs jsValue "String")
  /\ ResolveValue gen fuel name jsValue (Ident "int") dst =
    delivered dst (readAs jsValue "Int")
  /\ (forall t,
        In t ["int8"; "int16"; "int32"; "rune"; "int64"; "uint"; "uint8";
              "byte"; "uint16"; "uint32"; "uint64"; "uintptr"] ->
        ResolveValue gen fuel name jsValue (Ident t) dst =
          delivered dst (castTo t (readAs jsValue "Int")))
  /\ ResolveValue gen fuel name jsValue (Ident "float64") dst =
    delivered dst (readAs jsValue "Float")
  /\ ResolveValue gen fuel name jsValue (Ident "float32") dst =
    delivered dst (castTo "float32" (readAs jsValue "Float")).
Proof.
  repeat split; try intros t Ht; rewrite ResolveValue_Ident.
  4: {
    simpl in Ht.
    repeat (destruct Ht as [<- | Ht]; [scalar_case |]).
    contradiction.
  }
  all: scalar_case.
Qed.

(** ** The pointer resolver *)

Section Pointer.
Variable rv : resolver_fn.
Variables (name : string) (jsValue X : expr) (dst : option expr).

Lemma resolvePointer_returns e body :
  rv (name +:+ "Elt") jsValue X (Some (destination name dst)) =
    Returns (e, body, None) ->
  resolvePointer rv name jsValue X dst =
    Returns (Some (destination name dst),
             pointerDeclaration name X dst ++ [kindGuard jsValue body],
             None).
Proof.
  intros Hchild. unfold resolvePointer, pointerDeclaration.
  destruct dst; simpl in *; rewrite Hchild; reflexivity.
Qed.

Lemma resolvePointer_fails e body err :
  rv (name +:+ "Elt") jsValue X (Some (destination name dst)) =
    Returns (e, body, Some err) ->
  resolvePointer rv name jsValue X dst =
    Returns (None, [], Some (UnresolvedPointerElement X err)).
Proof.
  intros Hchild. unfold resolvePointer.
  destruct dst; simpl in *; rewrite Hchild; reflexivity.
Qed.

Lemma resolvePointer_inv r :
  resolvePointer rv name jsValue X dst = Returns r ->
  exists e body err,
    rv (name +:+ "Elt") jsValue X (Some (destination name dst)) =
      Returns (e, body, err).
Proof.
  unfold resolvePointer.
  destruct dst as [d |]; simpl;
    (destruct (rv _ _ _ _) as [[[e body] err] | |]; simpl;
     [eauto | discriminate | discriminate]).
Qed.
End Pointer.

Lemma kindGuard_runs k jsValue body :
  guardRuns k (kindGuard jsValue body) = Some true.
Proof. destruct k; reflexivity. Qed.

Lemma ResolveValue_S gen fuel :
  ResolveValue gen (S fuel) = dispatch gen (ResolveValue gen fuel).
Proof. reflexivity. Qed.

(** C1.  What the code does with the guard: whenever a pointer type
    resolves, its last statement is the guard, and the condition of that
    guard holds for every kind the source can have, null and undefined
    included (an or of the two inequalities, of which one always
    holds).  The guarded statements are therefore run for a null or
    undefined source as well. *)
Theorem pointer_guard_runs_for_every_kind
    gen fuel name jsValue X dst e stmts :
  ResolveValue gen fuel name jsValue (StarExpr X) dst =
    Returns (e, stmts, None) ->
  exists pre body,
    stmts = pre ++ [kindGuard jsValue body]
    /\ (forall k, guardRuns k (kindGuard jsValue body) = Some true)
    /\ guardRuns TypeNull (kindGuard jsValue body) = Some true
    /\ guardRuns TypeUndefined (kindGuard jsValue body) = Some true.
Proof.
  intros Hres. rewrite ResolveValue_unfold in Hres. simpl in Hres.
  destruct (resolvePointer_inv _ _ _ _ _ _ Hres) as (e' & body & err & Hchild).
  destruct err as [err |].
  - rewrite (resolvePointer_fails _ _ _ _ _ _ _ _ Hchild) in Hres.
    discriminate.
  - rewrite (resolvePointer_returns _ _ _ _ _ _ _ Hchild) in Hres.
    injection Hres as _ Hstmts. eexists _, body.
    split; [symmetry; exact Hstmts |].
    split; [intros k; apply kindGuard_runs |].
    split; apply kindGuard_runs.
Qed.

Lemma pointer_guard_runs_for_every_kind_witness :
  exists pre body,
    [varDecl "x" (StarExpr (Ident "int"));
     kindGuard (argumentSource 0)
       [AssignStmt [Ident "x"] ASSIGN [readAs (argumentSource 0) "Int"]]] =
    pre ++ [kindGuard (argumentSource 0) body]
    /\ (forall k, guardRuns k (kindGuard (argumentSource 0) body) = Some true)
    /\ guardRuns TypeNull (kindGuard (argumentSource 0) body) = Some true
    /\ guardRuns TypeUndefined (kindGuard (argumentSource 0) body) = Some true.
Proof.
  apply (pointer_guard_runs_for_every_kind sampleGen 1 "x"
           (argumentSource 0) (Ident "int") None (Some (Ident "x"))).
  vm_compute. reflexivity.
Defined.

(** What the pointer resolver emits without a destination, for every
    pointee: the declaration [var name *X] and the guard, whose block is
    the pointee resolved against the identifier [name] itself.  The
    pointee is thus written to a variable of pointer type, and nothing
    allocates it. *)
Theorem pointer_without_destination gen fuel name jsValue X e body :
  ResolveValue gen fuel (name +:+ "Elt") jsValue X (Some (Ident name)) =
    Returns (e, body, None) ->
  ResolveValue gen (S fuel) name jsValue (StarExpr X) None =
    Returns (Some (Ident name),
             [varDecl name (StarExpr X); kindGuard jsValue body], None).
Proof.
  intros Hchild. rewrite ResolveValue_S. simpl.
  exact (resolvePointer_returns _ _ _ _ None _ _ Hchild).
Qed.

Lemma pointer_without_destination_witness :
  ResolveValue sampleGen 1 "x" (argumentSource 0) (StarExpr (Ident "int"))
    None =
  Returns (Some (Ident "x"),
           [varDecl "x" (StarExpr (Ident "int"));
            kindGuard (argumentSource 0)
              [AssignStmt [Ident "x"] ASSIGN
                 [readAs (argumentSource 0) "Int"]]],
           None).
Proof.
  apply (pointer_without_destination sampleGen 0 "x" (argumentSource 0)
           (Ident "int") (Some (Ident "x"))).
  vm_compute. reflexivity.
Defined.

(** C2.  The pointer resolver does not resolve the pointee against the
    dereferenced destination.  On [*int] named [x], read from [args[0]]
    with no destination, it emits [var x *int] and, in the guard,
    [x = args[0].Int()]: an [int] assigned to the variable just declared
    as [*int], with no statement allocating the pointee.  Resolved
    against [*x], as the sequence and record resolvers hand their
    children [dst[idx]] and [dst.field], the pointee would yield
    [*x = args[0].Int()]; the emitted block is not that one. *)
Lemma pointer_inner_not_dereferenced :
  ResolveValue sampleGen 1 "x" (argumentSource 0) (StarExpr (Ident "int"))
    None =
  Returns (Some (Ident "x"),
           [varDecl "x" (StarExpr (Ident "int"));
            kindGuard (argumentSource 0)
              [AssignStmt [Ident "x"] ASSIGN
                 [readAs (argumentSource 0) "Int"]]],
           None)
  /\ ~ innerAgainstPointee sampleGen 0 "x" (argumentSource 0) (Ident "int").
Proof.
  split; [vm_compute; reflexivity |].
  intros Hclaim.
  destruct (Hclaim (Some (StarExpr (Ident "x")))
              [AssignStmt [StarExpr (Ident "x")] ASSIGN
                 [readAs (argumentSource 0) "Int"]])
    as (pre & init & cond & els & Hres).
  { vm_compute. reflexivity. }
  vm_compute in Hres.
  injection Hres as Hstmts.
  destruct pre as [| s1 [| s2 [| s3 pre]]]; simpl in Hstmts;
    discriminate Hstmts.
Qed.

(** ** The sequence resolver *)

Section Sequence.
Variable rv : resolver_fn.
Variables (name : string) (jsValue : expr).
Variables (Len : option expr) (Elt : expr) (dst : option expr).

Lemma resolveArray_returns e body :
  rv (name +:+ "Elt") (elementSource jsValue (name +:+ "Idx")) Elt
     (Some (IndexExpr (destination name dst) (Ident (name +:+ "Idx")))) =
    Returns (e, body, None) ->
  resolveArray rv name jsValue Len Elt dst =
    Returns (Some (destination name dst),
             (sequenceQuery name jsValue Len ++
              sequenceStorage name Len Elt dst) ++
             [countedLoop (name +:+ "Idx") (sequenceBound name Len) body],
             None).
Proof.
  intros Hchild. unfold resolveArray, sequenceQuery, sequenceStorage.
  destruct Len as [l |], dst as [d |]; simpl in *;
    unfold elementSource in Hchild; rewrite Hchild; reflexivity.
Qed.

Lemma resolveArray_fails e body err :
  rv (name +:+ "Elt") (elementSource jsValue (name +:+ "Idx")) Elt
     (Some (IndexExpr (destination name dst) (Ident (name +:+ "Idx")))) =
    Returns (e, body, Some err) ->
  resolveArray rv name jsValue Len Elt dst =
    Returns (None, [], Some (UnresolvedArrayElement Elt err)).
Proof.
  intros Hchild. unfold resolveArray.
  destruct Len as [l |], dst as [d |]; simpl in *;
    unfold elementSource in Hchild; rewrite Hchild; reflexivity.
Qed.

End Sequence.

Lemma sequenceStorage_no_query name Len Elt dst :
  Forall (fun s => isLengthQuery s = false) (sequenceStorage name Len Elt dst).
Proof.
  unfold sequenceStorage. destruct dst; [constructor |].
  constructor; [| constructor]. destruct Len; reflexivity.
Qed.

Lemma sequence_prefix_no_loop name jsValue Len Elt dst :
  Forall (fun s => isLoop s = false)
    (sequenceQuery name jsValue Len ++ sequenceStorage name Len Elt dst).
Proof.
  unfold sequenceQuery, sequenceStorage.
  destruct Len, dst; repeat constructor.
Qed.

(** C3.  When the element type resolves, the sequence resolver returns
    statements that end in the one counted loop over the element's
    statements (counter from 0, while below the bound, stepping by one),
    with no other loop before it.  For a fixed length the bound is the
    length expression itself, whatever it is (a literal 0 too), and no
    statement before the loop queries a length.  For a dynamic length the
    first statement binds [nameLen] to the queried length, nothing else
    before the loop queries one, and [nameLen] is the bound. *)
Theorem sequence_length_dispatch gen fuel name jsValue Len Elt dst e body :
  ResolveValue gen fuel (name +:+ "Elt")
    (elementSource jsValue (name +:+ "Idx")) Elt
    (Some (IndexExpr (destination name dst) (Ident (name +:+ "Idx")))) =
    Returns (e, body, None) ->
  exists pre bound,
    ResolveValue gen (S fuel) name jsValue (ArrayType Len Elt) dst =
      Returns (Some (destination name dst),
               pre ++ [countedLoop (name +:+ "Idx") bound body], None)
    /\ Forall (fun s => isLoop s = false) pre
    /\ match Len with
       | Some l =>
           bound = l /\ Forall (fun s => isLengthQuery s = false) pre
       | None =>
           bound = Ident (name +:+ "Len")
           /\ exists rest,
                pre = lengthQuery (name +:+ "Len") jsValue :: rest
                /\ Forall (fun s => isLengthQuery s = false) rest
       end.
Proof.
  intros Hchild. rewrite ResolveValue_S. simpl.
  eexists _, (sequenceBound name Len). split.
  { exact (resolveArray_returns _ _ _ _ _ _ _ _ Hchild). }
  split; [apply sequence_prefix_no_loop |].
  destruct Len as [l |]; simpl.
  - split; [reflexivity |].
    exact (sequenceStorage_no_query name (Some l) Elt dst).
  - split; [reflexivity |]. eexists. split; [reflexivity |].
    exact (sequenceStorage_no_query name None Elt dst).
Qed.

Lemma sequence_length_dispatch_witness :
  (exists pre bound,
     ResolveValue sampleGen 1 "xs" (argumentSource 0)
       (ArrayType (Some (BasicLit INT "0")) (Ident "string")) None =
       Returns (Some (Ident "xs"),
                pre ++ [countedLoop "xsIdx" bound
                          [AssignStmt [IndexExpr (Ident "xs") (Ident "xsIdx")]
                             ASSIGN
                             [readAs (elementSource (argumentSource 0) "xsIdx")
                                "String"]]],
                None)
     /\ Forall (fun s => isLoop s = false) pre
     /\ bound = BasicLit INT "0"
     /\ Forall (fun s => isLengthQuery s = false) pre)
  /\ (exists pre bound,
        ResolveValue sampleGen 1 "xs" (argumentSource 0)
          (ArrayType None (Ident "string")) None =
          Returns (Some (Ident "xs"),
                   pre ++ [countedLoop "xsIdx" bound
                             [AssignStmt
                                [IndexExpr (Ident "xs") (Ident "xsIdx")]
                                ASSIGN
                                [readAs
                                   (elementSource (argumentSource 0) "xsIdx")
                                   "String"]]],
                   None)
        /\ Forall (fun s => isLoop s = false) pre
        /\ bound = Ident "xsLen"
        /\ exists rest,
             pre = lengthQuery "xsLen" (argumentSource 0) :: rest
             /\ Forall (fun s => isLengthQuery s = false) rest).
Proof.
  split.
  - apply (sequence_length_dispatch sampleGen 0 "xs" (argumentSource 0)
             (Some (BasicLit INT "0")) (Ident "string") None
             (Some (IndexExpr (Ident "xs") (Ident "xsIdx")))).
    vm_compute. reflexivity.
  - apply (sequence_length_dispatch sampleGen 0 "xs" (argumentSource 0)
             None (Ident "string") None
             (Some (IndexExpr (Ident "xs") (Ident "xsIdx")))).
    vm_compute. reflexivity.
Defined.

(** ** The record resolver *)

Lemma namedEntries_cons f fields :
  namedEntries (f :: fields) =
  map (fun n => (n, FieldType f)) (Names f) ++ namedEntries fields.
Proof. reflexivity. Qed.

Lemma namedEntries_app l1 l2 :
  namedEntries (l1 ++ l2) = namedEntries l1 ++ namedEntries l2.
Proof. unfold namedEntries. apply flat_map_app. Qed.

Lemma namedEntries_embedded before T after :
  namedEntries (before ++ mkField [] T :: after) =
  namedEntries (before ++ after).
Proof. rewrite !namedEntries_app. reflexivity. Qed.

Section Record.
Variable rv : resolver_fn.
Variables (name : string) (jsValue : expr).

Lemma recordEntriesLoop_app d l1 l2 acc :
  recordEntriesLoop rv name jsValue d (l1 ++ l2) acc =
  (r ← recordEntriesLoop rv name jsValue d l1 acc;
   match r with
   | inl err => Returns (inl err)
   | inr acc' => recordEntriesLoop rv name jsValue d l2 acc'
   end).
Proof.
  revert acc. induction l1 as [| [n t] l1 IH]; intros acc; simpl.
  - reflexivity.
  - destruct (rv _ _ _ _) as [[[e body] [err |]] | |]; simpl;
      [reflexivity | apply IH | reflexivity | reflexivity].
Qed.

Lemma structNamesLoop_entries d t names acc :
  structNamesLoop rv name jsValue d t names acc =
  recordEntriesLoop rv name jsValue d (map (fun n => (n, t)) names) acc.
Proof.
  revert acc. induction names as [| n names IH]; intros acc; simpl.
  - reflexivity.
  - unfold fieldSource.
    destruct (rv _ _ _ _) as [[[e body] [err |]] | |]; simpl;
      [reflexivity | apply IH | reflexivity | reflexivity].
Qed.

Lemma structFieldsLoop_entries d fields acc :
  structFieldsLoop rv name jsValue d fields acc =
  recordEntriesLoop rv name jsValue d (namedEntries fields) acc.
Proof.
  revert acc. induction fields as [| f fields IH]; intros acc.
  - reflexivity.
  - rewrite namedEntries_cons, recordEntriesLoop_app.
    cbn [structFieldsLoop]. rewrite structNamesLoop_entries.
    destruct (recordEntriesLoop _ _ _ _ _ _) as [[err | acc'] | |]; simpl;
      [reflexivity | apply IH | reflexivity | reflexivity].
Qed.

Lemma recordEntriesLoop_returns d entries bodies acc :
  Forall2 (fieldResolved rv name jsValue d) entries bodies ->
  recordEntriesLoop rv name jsValue d entries acc =
  Returns (inr (acc ++ concat bodies)).
Proof.
  intros Hall. revert acc.
  induction Hall as [| [n t] body entries bodies [e He] _ IH];
    intros acc; simpl.
  - rewrite app_nil_r. reflexivity.
  - simpl in He. rewrite He. simpl. rewrite IH, app_assoc. reflexivity.
Qed.

Lemma recordEntriesLoop_fails d before n t after bodies e body err acc :
  Forall2 (fieldResolved rv name jsValue d) before bodies ->
  rv (name +:+ n) (fieldSource jsValue n) t (Some (SelectorExpr d n)) =
    Returns (e, body, Some err) ->
  recordEntriesLoop rv name jsValue d (before ++ (n, t) :: after) acc =
  Returns (inl (UnresolvedStructField t err)).
Proof.
  intros Hall Hfail.
  rewrite recordEntriesLoop_app, (recordEntriesLoop_returns _ _ _ _ Hall).
  simpl. rewrite Hfail. reflexivity.
Qed.

Lemma resolveStruct_entries Fields dst :
  resolveStruct rv name jsValue Fields dst =
  (r ← recordEntriesLoop rv name jsValue (destination name dst)
         (namedEntries Fields) (recordAllocation name dst Fields);
   match r with
   | inl err => Returns (None, [], Some err)
   | inr resolver => Returns (Some (destination name dst), resolver, None)
   end).
Proof.
  unfold resolveStruct.
  destruct dst as [d |]; simpl; rewrite structFieldsLoop_entries;
    reflexivity.
Qed.

Lemma resolveStruct_returns Fields dst bodies :
  Forall2 (fieldResolved rv name jsValue (destination name dst))
    (namedEntries Fields) bodies ->
  resolveStruct rv name jsValue Fields dst =
  Returns (Some (destination name dst),
           recordAllocation name dst Fields ++ concat bodies, None).
Proof.
  intros Hall.
  rewrite resolveStruct_entries, (recordEntriesLoop_returns _ _ _ _ Hall).
  reflexivity.
Qed.

Lemma resolveStruct_fails Fields dst before n t after bodies e body err :
  namedEntries Fields = before ++ (n, t) :: after ->
  Forall2 (fieldResolved rv name jsValue (destination name dst))
    before bodies ->
  rv (name +:+ n) (fieldSource jsValue n) t
     (Some (SelectorExpr (destination name dst) n)) =
    Returns (e, body, Some err) ->
  resolveStruct rv name jsValue Fields dst =
  Returns (None, [], Some (UnresolvedStructField t err)).
Proof.
  intros Hsplit Hall Hfail.
  rewrite resolveStruct_entries, Hsplit,
    (recordEntriesLoop_fails _ _ _ _ _ _ _ _ _ _ Hall Hfail).
  reflexivity.
Qed.

Lemma recordEntriesLoop_acc d entries acc :
  recordEntriesLoop rv name jsValue d entries acc =
  (r ← recordEntriesLoop rv name jsValue d entries [];
   Returns (match r with
            | inl err => inl err
            | inr rest => inr (acc ++ rest)
            end)).
Proof.
  revert acc.
  induction entries as [| [n t] entries IH]; intros acc; simpl.
  - rewrite app_nil_r. reflexivity.
  - destruct (rv _ _ _ _) as [[[e body] [err |]] | |]; simpl;
      try reflexivity.
    rewrite (IH (acc ++ body)), (IH body).
    destruct (recordEntriesLoop _ _ _ _ _ _) as [[err | rest] | |]; simpl;
      try reflexivity.
    rewrite app_assoc. reflexivity.
Qed.
End Record.

Lemma ResolveValue_StructType gen fuel name jsValue Fields dst :
  ResolveValue gen fuel name jsValue (StructType Fields) dst =
  resolveStruct
    (match fuel with
     | O => fun _ _ _ _ => OutOfFuel
     | S fuel' => ResolveValue gen fuel'
     end) name jsValue Fields dst.
Proof. rewrite ResolveValue_unfold. reflexivity. Qed.

(** C4.  When every named field resolves, each from the source
    [jsValue.Get(field)] into the destination [dst.field], the record
    resolver returns the destination and, after the allocation
    [name := T{}] that it emits first when no destination was supplied
    (the local [name] then being the destination), the statements of the
    fields one after the other in declaration order. *)
Theorem record_fields_in_order gen fuel name jsValue Fields dst bodies :
  Forall2
    (fieldResolved (ResolveValue gen fuel) name jsValue (destination name dst))
    (namedEntries Fields) bodies ->
  ResolveValue gen (S fuel) name jsValue (StructType Fields) dst =
  Returns (Some (destination name dst),
           recordAllocation name dst Fields ++ concat bodies, None).
Proof.
  intros Hall. rewrite ResolveValue_StructType.
  exact (resolveStruct_returns _ _ _ _ _ _ Hall).
Qed.

Lemma record_fields_in_order_witness :
  ResolveValue sampleGen 3 "r" (argumentSource 0) sampleRecord None =
  Returns
    (Some (Ident "r"),
     [AssignStmt [Ident "r"] DEFINE [CompositeLit sampleRecord]] ++
     concat
       [[AssignStmt [SelectorExpr (Ident "r") "Count"] ASSIGN
           [castTo "int32"
              (readAs (fieldSource (argumentSource 0) "Count") "Int")]];
        [kindGuard (fieldSource (argumentSource 0) "Items")
           [lengthQuery "rItemsEltLen" (fieldSource (argumentSource 0) "Items");
            countedLoop "rItemsEltIdx" (Ident "rItemsEltLen")
              [AssignStmt
                 [IndexExpr (SelectorExpr (Ident "r") "Items")
                    (Ident "rItemsEltIdx")]
                 ASSIGN
                 [readAs
                    (elementSource (fieldSource (argumentSource 0) "Items")
                       "rItemsEltIdx")
                    "String"]]]]],
     None).
Proof.
  apply (record_fields_in_order sampleGen 2 "r" (argumentSource 0)
           [mkField ["Count"] (Ident "int32");
            mkField [] (MapType (Ident "string") (Ident "int"));
            mkField ["Items"] (StarExpr (ArrayType None (Ident "string")))]
           None).
  constructor; [eexists; vm_compute; reflexivity |].
  constructor; [eexists; vm_compute; reflexivity |].
  constructor.
Defined.

(** C10.  A field entry without names (an embedded field) is passed
    over: a record made of one such entry resolves, whatever the type of
    the entry, to the bare allocation (to nothing when a destination is
    supplied) and to no error; and taking such an entry out of a record
    changes nothing in what the record resolves to, apart from the record
    type spelled in the allocation statement. *)
Theorem record_skips_embedded_field gen fuel name jsValue T :
  (forall dst,
     ResolveValue gen fuel name jsValue (StructType [mkField [] T]) dst =
     Returns (Some (destination name dst),
              recordAllocation name dst [mkField [] T], None))
  /\ (forall before after d,
        ResolveValue gen fuel name jsValue
          (StructType (before ++ mkField [] T :: after)) (Some d) =
        ResolveValue gen fuel name jsValue
          (StructType (before ++ after)) (Some d))
  /\ (forall before after,
        afterFirstStatement
          (ResolveValue gen fuel name jsValue
             (StructType (before ++ mkField [] T :: after)) None) =
        afterFirstStatement
          (ResolveValue gen fuel name jsValue
             (StructType (before ++ after)) None)).
Proof.
  split; [| split].
  - intros dst. rewrite ResolveValue_StructType.
    destruct dst; reflexivity.
  - intros before after d.
    rewrite !ResolveValue_StructType, !resolveStruct_entries,
      namedEntries_embedded.
    reflexivity.
  - intros before after.
    rewrite !ResolveValue_StructType, !resolveStruct_entries,
      namedEntries_embedded.
    cbn [recordAllocation destination].
    rewrite (recordEntriesLoop_acc _ _ _ _ _ [_]).
    rewrite (recordEntriesLoop_acc _ _ _ _ _
               [AssignStmt _ _ [CompositeLit (StructType (before ++ after))]]).
    destruct (recordEntriesLoop _ _ _ _ _ _) as [[err | rest] | |];
      reflexivity.
Qed.

(** ** The argument-list driver *)

Lemma NumFields_from params n m :
  fold_left
    (fun n g => let m := length (Names g) in n + (if Nat.eqb m 0 then 1 else m))
    params (n + m) =
  n + fold_left
        (fun n g =>
           let m := length (Names g) in n + (if Nat.eqb m 0 then 1 else m))
        params m.
Proof.
  revert m. induction params as [| f params IH]; intros m; simpl.
  - reflexivity.
  - rewrite <- Nat.add_assoc. apply IH.
Qed.

Lemma NumFields_cons f params :
  NumFields (f :: params) =
  (if Nat.eqb (length (Names f)) 0 then 1 else length (Names f)) +
  NumFields params.
Proof.
  unfold NumFields. simpl.
  rewrite <- NumFields_from, Nat.add_0_r. reflexivity.
Qed.

Lemma namedEntries_length_le params :
  length (namedEntries params) <= NumFields params.
Proof.
  induction params as [| f params IH]; [reflexivity |].
  rewrite namedEntries_cons, NumFields_cons, length_app, length_map.
  destruct (Nat.eqb_spec (length (Names f)) 0); lia.
Qed.

Lemma namedEntries_length_named params :
  Forall (fun p => Names p <> []) params ->
  length (namedEntries params) = NumFields params.
Proof.
  induction 1 as [| f params Hf _ IH]; [reflexivity |].
  rewrite namedEntries_cons, NumFields_cons, length_app, length_map.
  destruct (Nat.eqb_spec (length (Names f)) 0) as [Hz |]; [| lia].
  destruct (Names f); [contradiction | discriminate].
Qed.

Lemma argumentsResolved_length rv i entries results :
  argumentsResolved rv i entries results -> length results = length entries.
Proof. induction 1; simpl; congruence. Qed.

Section Arguments.
Variable rv : resolver_fn.

Lemma argEntriesLoop_app l1 l2 st :
  argEntriesLoop rv (l1 ++ l2) st =
  (r ← argEntriesLoop rv l1 st;
   match r with
   | inl err => Returns (inl err)
   | inr st' => argEntriesLoop rv l2 st'
   end).
Proof.
  revert st. induction l1 as [| [n t] l1 IH]; intros [[i args] acc]; simpl.
  - reflexivity.
  - destruct (rv _ _ _ _) as [[[e body] err] | |]; simpl;
      try reflexivity.
    destruct (decide _); [| reflexivity].
    destruct err; [reflexivity | apply IH].
Qed.

Lemma paramNamesLoop_entries t names st :
  paramNamesLoop rv t names st =
  argEntriesLoop rv (map (fun n => (n, t)) names) st.
Proof.
  revert st. induction names as [| n names IH]; intros [[i args] acc]; simpl.
  - reflexivity.
  - unfold argumentSource.
    destruct (rv _ _ _ _) as [[[e body] err] | |]; simpl;
      try reflexivity.
    destruct (decide _); [| reflexivity].
    destruct err; [reflexivity | apply IH].
Qed.

Lemma paramsLoop_entries params st :
  paramsLoop rv params st = argEntriesLoop rv (namedEntries params) st.
Proof.
  revert st. induction params as [| f params IH]; intros st.
  - reflexivity.
  - rewrite namedEntries_cons, argEntriesLoop_app.
    cbn [paramsLoop]. rewrite paramNamesLoop_entries.
    destruct (argEntriesLoop _ _ _) as [[err | st'] | |]; simpl;
      [reflexivity | apply IH | reflexivity | reflexivity].
Qed.

Lemma argEntriesLoop_returns i entries results :
  argumentsResolved rv i entries results ->
  forall args acc,
    i + length entries <= length args ->
    argEntriesLoop rv entries (i, args, acc) =
    Returns (inr (i + length entries,
                  take i args ++ map fst results ++
                  drop (i + length entries) args,
                  acc ++ concat (map snd results))).
Proof.
  induction 1 as [i | i [n t] [e body] entries results Hres _ IH];
    intros args acc Hlen; simpl in *.
  - rewrite Nat.add_0_r, take_drop, app_nil_r. reflexivity.
  - unfold argumentResolved in Hres. simpl in Hres. rewrite Hres. simpl.
    destruct (decide (i < length args)) as [Hi | Hi]; [| lia].
    rewrite IH by (rewrite length_insert; lia).
    rewrite (take_S_r _ _ e) by (apply list_lookup_insert_eq; exact Hi).
    rewrite take_insert_ge by lia.
    rewrite drop_insert_lt by lia.
    rewrite <- !app_assoc. simpl.
    replace (i + S (length entries)) with (S (i + length entries)) by lia.
    reflexivity.
Qed.

Lemma argEntriesLoop_fails i before n t after results e body err :
  argumentsResolved rv i before results ->
  rv n (argumentSource (i + length before)) t None =
    Returns (e, body, Some err) ->
  forall args acc,
    i + length before < length args ->
    argEntriesLoop rv (before ++ (n, t) :: after) (i, args, acc) =
    Returns (inl (UnresolvedArgument n t err)).
Proof.
  intros Hall Hfail args acc Hlen.
  rewrite argEntriesLoop_app, (argEntriesLoop_returns _ _ _ Hall) by lia.
  simpl. rewrite Hfail. simpl.
  match goal with |- context [decide ?P] => destruct (decide P) as [| Hn] end.
  - reflexivity.
  - exfalso. apply Hn.
    rewrite !length_app, length_take, length_map, length_drop.
    rewrite (argumentsResolved_length _ _ _ _ Hall). lia.
Qed.

Lemma resolveFuncArgsWith_returns params results :
  argumentsResolved rv 0 (namedEntries params) results ->
  resolveFuncArgsWith rv params =
  Returns (map fst results ++
           replicate (NumFields params - length results) None,
           concat (map snd results), None).
Proof.
  intros Hall. unfold resolveFuncArgsWith.
  pose proof (namedEntries_length_le params) as Hle.
  rewrite paramsLoop_entries, (argEntriesLoop_returns _ _ _ Hall)
    by (rewrite length_replicate; simpl; exact Hle).
  simpl. rewrite drop_replicate.
  rewrite (argumentsResolved_length _ _ _ _ Hall). reflexivity.
Qed.

Lemma resolveFuncArgsWith_fails params before n t after results e body err :
  namedEntries params = before ++ (n, t) :: after ->
  argumentsResolved rv 0 before results ->
  rv n (argumentSource (length before)) t None =
    Returns (e, body, Some err) ->
  resolveFuncArgsWith rv params =
  Returns ([], [], Some (UnresolvedArgument n t err)).
Proof.
  intros Hsplit Hall Hfail. unfold resolveFuncArgsWith.
  pose proof (namedEntries_length_le params) as Hle.
  rewrite Hsplit, length_app in Hle. simpl in Hle.
  rewrite paramsLoop_entries, Hsplit.
  rewrite (argEntriesLoop_fails 0 _ _ _ _ _ _ _ _ Hall Hfail)
    by (rewrite length_replicate; simpl; lia).
  reflexivity.
Qed.
End Arguments.

(** C5.  When the parameters, taken name by name in the order of the
    list and numbered from 0, each resolve from the source [args[i]] of
    their own number with no destination, the driver returns their
    expressions in that order and their statements block after block in
    that order.  An entry without names is not a parameter in this sense:
    it gets no resolution and leaves a nil slot at the end of the
    expressions; when every entry is named there is no such slot. *)
Theorem arguments_in_positional_order gen fuel params results :
  argumentsResolved (ResolveValue gen fuel) 0 (namedEntries params) results ->
  resolveFuncArgs gen fuel params =
    Returns (map fst results ++
             replicate (NumFields params - length results) None,
             concat (map snd results), None)
  /\ (Forall (fun p => Names p <> []) params ->
      resolveFuncArgs gen fuel params =
        Returns (map fst results, concat (map snd results), None)).
Proof.
  intros Hall. unfold resolveFuncArgs.
  rewrite (resolveFuncArgsWith_returns _ _ _ Hall).
  split; [reflexivity |]. intros Hnamed.
  rewrite (argumentsResolved_length _ _ _ _ Hall),
    (namedEntries_length_named _ Hnamed), Nat.sub_diag.
  simpl. rewrite app_nil_r. reflexivity.
Qed.

Lemma arguments_in_positional_order_witness :
  resolveFuncArgs sampleGen 0 sampleParams =
    Returns
      ([Some (readAs (IndexExpr (Ident "args") (BasicLit INT "0")) "Bool");
        Some (readAs (IndexExpr (Ident "args") (BasicLit INT "1")) "String")],
       [], None).
Proof.
  refine (proj2 (arguments_in_positional_order sampleGen 0 sampleParams
                   [(Some (readAs (argumentSource 0) "Bool"), []);
                    (Some (readAs (argumentSource 1) "String"), [])] _) _).
  - constructor; [vm_compute; reflexivity |].
    constructor; [vm_compute; reflexivity |].
    constructor.
  - repeat constructor; discriminate.
Defined.

(** ** Failures *)

Lemma resolveIdent_cleanFailure gen rv name jsValue typeStr dst :
  cleanFailure rv ->
  forall e stmts err,
    resolveIdent gen rv name jsValue typeStr dst =
      Returns (e, stmts, Some err) ->
    e = None /\ stmts = [].
Proof.
  intros Hrv e stmts err. unfold resolveIdent, getTypeAlias.
  destruct (scalarCase typeStr) as [[method typeCast] |].
  - destruct dst; discriminate.
  - destruct (typeAliases gen !! typeStr) as [T |].
    + apply Hrv.
    + intros [= <- <- _]. split; reflexivity.
Qed.

Lemma dispatch_cleanFailure gen rv :
  cleanFailure rv -> cleanFailure (dispatch gen rv).
Proof.
  intros Hrv name jsValue T dst e stmts err.
  destruct T; simpl; try discriminate.
  - apply resolveIdent_cleanFailure, Hrv.
  - unfold resolvePointer.
    destruct dst as [d |]; simpl;
      (destruct (rv _ _ _ _) as [[[e' body] [err' |]] | |]; simpl;
       [intros [= <- <- _]; split; reflexivity
       | discriminate | discriminate | discriminate]).
  - unfold resolveArray.
    destruct Len as [l |], dst as [d |]; simpl;
      (destruct (rv _ _ _ _) as [[[e' body] [err' |]] | |]; simpl;
       [intros [= <- <- _]; split; reflexivity
       | discriminate | discriminate | discriminate]).
  - rewrite resolveStruct_entries.
    destruct (recordEntriesLoop _ _ _ _ _ _) as [[err' | rest] | |]; simpl;
      [intros [= <- <- _]; split; reflexivity
      | discriminate | discriminate | discriminate].
Qed.

Lemma ResolveValue_cleanFailure gen fuel : cleanFailure (ResolveValue gen fuel).
Proof.
  induction fuel as [| fuel IH]; simpl; apply dispatch_cleanFailure.
  - intros name jsValue T dst e stmts err. discriminate.
  - exact IH.
Qed.

Lemma resolveFuncArgsWith_cleanFailure rv params args stmts err :
  resolveFuncArgsWith rv params = Returns (args, stmts, Some err) ->
  args = [] /\ stmts = [].
Proof.
  unfold resolveFuncArgsWith.
  destruct (paramsLoop _ _ _) as [[err' | [[i args'] acc]] | |]; simpl;
    [intros [= <- <- _]; split; reflexivity
    | discriminate | discriminate | discriminate].
Qed.

(** C7.  A failing child makes each composite resolver fail with the
    child's error wrapped under its own heading and the type of the
    child: the pointee of a pointer, the element of a sequence, the first
    field of a record that fails, the first parameter of the list that
    fails (named, with its type).  And whenever a resolver or the driver
    returns an error, it returns no expression and no statement with
    it. *)
Theorem child_failure_is_wrapped gen fuel :
  (forall name jsValue X dst e stmts err,
     ResolveValue gen fuel (name +:+ "Elt") jsValue X
       (Some (destination name dst)) = Returns (e, stmts, Some err) ->
     ResolveValue gen (S fuel) name jsValue (StarExpr X) dst =
       Returns (None, [], Some (UnresolvedPointerElement X err)))
  /\ (forall name jsValue Len Elt dst e stmts err,
        ResolveValue gen fuel (name +:+ "Elt")
          (elementSource jsValue (name +:+ "Idx")) Elt
          (Some (IndexExpr (destination name dst) (Ident (name +:+ "Idx")))) =
          Returns (e, stmts, Some err) ->
        ResolveValue gen (S fuel) name jsValue (ArrayType Len Elt) dst =
          Returns (None, [], Some (UnresolvedArrayElement Elt err)))
  /\ (forall name jsValue Fields dst before n t after bodies e stmts err,
        namedEntries Fields = before ++ (n, t) :: after ->
        Forall2
          (fieldResolved (ResolveValue gen fuel) name jsValue
             (destination name dst))
          before bodies ->
        ResolveValue gen fuel (name +:+ n) (fieldSource jsValue n) t
          (Some (SelectorExpr (destination name dst) n)) =
          Returns (e, stmts, Some err) ->
        ResolveValue gen (S fuel) name jsValue (StructType Fields) dst =
          Returns (None, [], Some (UnresolvedStructField t err)))
  /\ (forall params before n t after results e stmts err,
        namedEntries params = before ++ (n, t) :: after ->
        argumentsResolved (ResolveValue gen fuel) 0 before results ->
        ResolveValue gen fuel n (argumentSource (length before)) t None =
          Returns (e, stmts, Some err) ->
        resolveFuncArgs gen fuel params =
          Returns ([], [], Some (UnresolvedArgument n t err)))
  /\ (forall name jsValue nativeType dst e stmts err,
        ResolveValue gen fuel name jsValue nativeType dst =
          Returns (e, stmts, Some err) ->
        e = None /\ stmts = [])
  /\ (forall params args stmts err,
        resolveFuncArgs gen fuel params = Returns (args, stmts, Some err) ->
        args = [] /\ stmts = []).
Proof.
  repeat apply conj.
  - intros name jsValue X dst e stmts err Hchild. rewrite ResolveValue_S.
    exact (resolvePointer_fails _ _ _ _ _ _ _ _ Hchild).
  - intros name jsValue Len Elt dst e stmts err Hchild.
    rewrite ResolveValue_S.
    exact (resolveArray_fails _ _ _ _ _ _ _ _ _ Hchild).
  - intros name jsValue Fields dst before n t after bodies e stmts err
      Hsplit Hall Hchild.
    rewrite ResolveValue_S.
    exact (resolveStruct_fails _ _ _ _ _ _ _ _ _ _ _ _ _ Hsplit Hall Hchild).
  - intros params before n t after results e stmts err Hsplit Hall Hchild.
    exact (resolveFuncArgsWith_fails _ _ _ _ _ _ _ _ _ _ Hsplit Hall Hchild).
  - apply ResolveValue_cleanFailure.
  - intros params args stmts err. apply resolveFuncArgsWith_cleanFailure.
Qed.

Lemma child_failure_is_wrapped_witness :
  ResolveValue sampleGen 2 "p" (argumentSource 0)
    (StarExpr (ArrayType None (Ident "Kelvin"))) None =
  Returns (None, [],
           Some (UnresolvedPointerElement (ArrayType None (Ident "Kelvin"))
                   (UnresolvedArrayElement (Ident "Kelvin")
                      (UnresolvedIdentifier (NotFound "Kelvin"))))).
Proof.
  apply (proj1 (child_failure_is_wrapped sampleGen 1) "p" (argumentSource 0)
           (ArrayType None (Ident "Kelvin")) None None []).
  apply (proj1 (proj2 (child_failure_is_wrapped sampleGen 0)) "pElt"
           (argumentSource 0) None (Ident "Kelvin") (Some (Ident "p"))
           None []).
  vm_compute. reflexivity.
Defined.

(** ** Aliases *)

Lemma aliasesTo_scalar gen target method typeCast s n :
  scalarCase target = Some (method, typeCast) ->
  aliasesTo gen target s n ->
  forall fuel name jsValue dst,
    n <= fuel ->
    ResolveValue gen fuel name jsValue (Ident s) dst =
    delivered dst
      (if String.eqb typeCast "" then readAs jsValue method
       else castTo typeCast (readAs jsValue method)).
Proof.
  intros Htarget Hchain.
  induction Hchain as [s Hs Hlook | s via n Hs Hlook _ IH];
    intros fuel name jsValue dst Hfuel;
    (destruct fuel as [| fuel]; [lia |]);
    rewrite ResolveValue_Ident, (resolveIdent_alias _ _ _ _ _ _ _ Hs Hlook).
  - rewrite ResolveValue_Ident.
    apply resolveIdent_scalarCase, Htarget.
  - apply IH. lia.
Qed.

(** C8.  A name that reaches [int32] through entries of the alias table
    resolves, once the depth budget covers the entries on the way, to
    exactly what [int32] resolves to with the same source and
    destination: the [Int] accessor cast to [int32], assigned to the
    destination when there is one.  A name that is no scalar name and has
    no entry in the table fails with the unresolved-identifier error
    around the lookup's error, which carries the name. *)
Theorem alias_chain_to_int32 gen :
  (forall s n fuel name jsValue dst,
     aliasesTo gen "int32" s n ->
     n <= fuel ->
     ResolveValue gen fuel name jsValue (Ident s) dst =
       ResolveValue gen fuel name jsValue (Ident "int32") dst
     /\ ResolveValue gen fuel name jsValue (Ident s) dst =
       delivered dst (castTo "int32" (readAs jsValue "Int")))
  /\ (forall s fuel name jsValue dst,
        scalarCase s = None ->
        typeAliases gen !! s = None ->
        ResolveValue gen fuel name jsValue (Ident s) dst =
          Returns (None, [], Some (UnresolvedIdentifier (NotFound s)))).
Proof.
  split.
  - intros s n fuel name jsValue dst Hchain Hfuel.
    rewrite (aliasesTo_scalar gen "int32" "Int" "int32" s n eq_refl Hchain
               fuel name jsValue dst Hfuel).
    split; [| reflexivity].
    rewrite ResolveValue_Ident. symmetry. scalar_case.
  - intros s fuel name jsValue dst Hs Hlook.
    rewrite ResolveValue_Ident. apply resolveIdent_absent; assumption.
Qed.

Lemma alias_chain_to_int32_witness :
  (ResolveValue sampleGen 2 "t" (argumentSource 0) (Ident "Celsius")
     (Some (Ident "d")) =
   ResolveValue sampleGen 2 "t" (argumentSource 0) (Ident "int32")
     (Some (Ident "d"))
   /\ ResolveValue sampleGen 2 "t" (argumentSource 0) (Ident "Celsius")
        (Some (Ident "d")) =
      Returns (Some (Ident "d"),
               [AssignStmt [Ident "d"] ASSIGN
                  [castTo "int32" (readAs (argumentSource 0) "Int")]],
               None))
  /\ ResolveValue sampleGen 0 "t" (argumentSource 0) (Ident "Kelvin") None =
     Returns (None, [], Some (UnresolvedIdentifier (NotFound "Kelvin"))).
Proof.
  split.
  - apply (proj1 (alias_chain_to_int32 sampleGen) "Celsius" 2 2 "t"
             (argumentSource 0) (Some (Ident "d"))); [| lia].
    apply (aliasesTo_next sampleGen "int32" "Celsius" "Degrees" 1);
      [reflexivity | reflexivity |].
    apply aliasesTo_last; reflexivity.
  - apply (proj2 (alias_chain_to_int32 sampleGen) "Kelvin" 0 "t"
             (argumentSource 0) None); reflexivity.
Defined.

(** ** Panics *)

Section Panics.
Variable gen : generator.
Variable rv : resolver_fn.

Lemma recordEntriesLoop_panics name jsValue d entries acc v :
  recordEntriesLoop rv name jsValue d entries acc = Panics v ->
  exists n t,
    In (n, t) entries
    /\ rv (name +:+ n) (fieldSource jsValue n) t (Some (SelectorExpr d n)) =
       Panics v.
Proof.
  revert acc.
  induction entries as [| [n t] entries IH]; intros acc; simpl.
  - discriminate.
  - destruct (rv _ _ _ _) as [[[e body] [err |]] | v' |] eqn:Hcall; simpl;
      try discriminate.
    + intros Hloop. destruct (IH _ Hloop) as (n' & t' & Hin & Hp).
      exists n', t'. split; [right; exact Hin | exact Hp].
    + intros [= <-]. exists n, t. split; [left; reflexivity | exact Hcall].
Qed.

Lemma resolvePointer_panics name jsValue X dst v :
  resolvePointer rv name jsValue X dst = Panics v ->
  rv (name +:+ "Elt") jsValue X (Some (destination name dst)) = Panics v.
Proof.
  unfold resolvePointer.
  destruct dst as [d |]; simpl;
    (destruct (rv _ _ _ _) as [[[e body] [err |]] | v' |]; simpl;
     [discriminate | discriminate | intros [= <-]; reflexivity
     | discriminate]).
Qed.

Lemma resolveArray_panics name jsValue Len Elt dst v :
  resolveArray rv name jsValue Len Elt dst = Panics v ->
  rv (name +:+ "Elt") (elementSource jsValue (name +:+ "Idx")) Elt
     (Some (IndexExpr (destination name dst) (Ident (name +:+ "Idx")))) =
  Panics v.
Proof.
  unfold resolveArray, elementSource.
  destruct Len as [l |], dst as [d |]; simpl;
    (destruct (rv _ _ _ _) as [[[e body] [err |]] | v' |]; simpl;
     [discriminate | discriminate | intros [= <-]; reflexivity
     | discriminate]).
Qed.

Lemma resolveStruct_panics name jsValue Fields dst v :
  resolveStruct rv name jsValue Fields dst = Panics v ->
  exists n t,
    In (n, t) (namedEntries Fields)
    /\ rv (name +:+ n) (fieldSource jsValue n) t
         (Some (SelectorExpr (destination name dst) n)) = Panics v.
Proof.
  rewrite resolveStruct_entries.
  destruct (recordEntriesLoop _ _ _ _ _ _) as [[err | rest] | v' |] eqn:Hloop;
    simpl; try discriminate.
  intros [= <-]. exact (recordEntriesLoop_panics _ _ _ _ _ _ Hloop).
Qed.

Lemma resolveIdent_panics name jsValue typeStr dst v :
  resolveIdent gen rv name jsValue typeStr dst = Panics v ->
  exists T,
    typeAliases gen !! typeStr = Some T
    /\ rv typeStr jsValue T dst = Panics v.
Proof.
  unfold resolveIdent, getTypeAlias.
  destruct (scalarCase typeStr) as [[method typeCast] |].
  - destruct dst; discriminate.
  - destruct (typeAliases gen !! typeStr) as [T |]; [| discriminate].
    intros Hp. exists T. split; [reflexivity | exact Hp].
Qed.

Lemma dispatch_panicsOnUnhandledOnly :
  panicsOnUnhandledOnly rv -> panicsOnUnhandledOnly (dispatch gen rv).
Proof.
  intros Hrv name jsValue T dst v.
  destruct T; simpl;
    try (intros [= <-]; eexists; split; reflexivity).
  - intros Hp. destruct (resolveIdent_panics _ _ _ _ _ Hp) as (T & _ & Hc).
    exact (Hrv _ _ _ _ _ Hc).
  - intros Hp. exact (Hrv _ _ _ _ _ (resolvePointer_panics _ _ _ _ _ Hp)).
  - intros Hp. exact (Hrv _ _ _ _ _ (resolveArray_panics _ _ _ _ _ _ Hp)).
  - intros Hp.
    destruct (resolveStruct_panics _ _ _ _ _ Hp) as (n & t & _ & Hc).
    exact (Hrv _ _ _ _ _ Hc).
Qed.

Lemma closedShape_entries Fields n t :
  closedShape (StructType Fields) = true ->
  In (n, t) (namedEntries Fields) ->
  closedShape t = true.
Proof.
  simpl. intros Hall Hin.
  apply in_flat_map in Hin as (f & Hf & Hin).
  apply in_map_iff in Hin as (n' & [= _ <-] & _).
  rewrite forallb_forall in Hall. specialize (Hall f Hf).
  destruct f; exact Hall.
Qed.

Lemma dispatch_safeOnClosedShapes :
  closedAliases gen ->
  safeOnClosedShapes rv -> safeOnClosedShapes (dispatch gen rv).
Proof.
  intros Hgen Hrv name jsValue T dst v Hclosed.
  destruct T; simpl in Hclosed; try discriminate Hclosed;
    cbn [dispatch]; intros Hp.
  - destruct (resolveIdent_panics _ _ _ _ _ Hp) as (T & Hlook & Hc).
    exact (Hrv _ _ _ _ _ (Hgen _ _ Hlook) Hc).
  - exact (Hrv _ _ _ _ _ Hclosed (resolvePointer_panics _ _ _ _ _ Hp)).
  - exact (Hrv _ _ _ _ _ Hclosed (resolveArray_panics _ _ _ _ _ _ Hp)).
  - destruct (resolveStruct_panics _ _ _ _ _ Hp) as (n & t & Hin & Hc).
    exact (Hrv _ _ _ _ _ (closedShape_entries _ _ _ Hclosed Hin) Hc).
Qed.
End Panics.

Lemma ResolveValue_panicsOnUnhandledOnly gen fuel :
  panicsOnUnhandledOnly (ResolveValue gen fuel).
Proof.
  induction fuel as [| fuel IH]; simpl; apply dispatch_panicsOnUnhandledOnly.
  - intros name jsValue T dst v. discriminate.
  - exact IH.
Qed.

Lemma ResolveValue_safeOnClosedShapes gen fuel :
  closedAliases gen -> safeOnClosedShapes (ResolveValue gen fuel).
Proof.
  intros Hgen.
  induction fuel as [| fuel IH]; simpl;
    apply dispatch_safeOnClosedShapes; try exact Hgen.
  - intros name jsValue T dst v _. discriminate.
  - exact IH.
Qed.

(** C9.  On a type that is none of identifier, pointer, sequence and
    record, [ResolveValue] panics with the unrecognized type, at every
    depth budget; it never returns an error there.  A panic of
    [ResolveValue] is always this one, raised on such a type; and on a
    type built from the four variants only, with an alias table of such
    types, no call panics. *)
Theorem unrecognized_type_panics gen fuel name jsValue nativeType dst :
  (handledVariant nativeType = false ->
   ResolveValue gen fuel name jsValue nativeType dst =
     Panics (UnrecognizedNativeType nativeType))
  /\ (forall v,
        ResolveValue gen fuel name jsValue nativeType dst = Panics v ->
        exists T, v = UnrecognizedNativeType T /\ handledVariant T = false)
  /\ (closedAliases gen ->
      closedShape nativeType = true ->
      forall v, ResolveValue gen fuel name jsValue nativeType dst <> Panics v).
Proof.
  split; [| split].
  - intros Hnot. rewrite ResolveValue_unfold.
    destruct nativeType; simpl in Hnot; try discriminate Hnot; reflexivity.
  - intros v. apply ResolveValue_panicsOnUnhandledOnly.
  - intros Hgen Hclosed v.
    exact (ResolveValue_safeOnClosedShapes gen fuel Hgen _ _ _ _ v Hclosed).
Qed.

Lemma sampleGen_closed : closedAliases sampleGen.
Proof.
  unfold closedAliases, sampleGen. simpl.
  repeat (apply map_Forall_insert_2; [reflexivity |]).
  apply map_Forall_empty.
Qed.

Lemma unrecognized_type_panics_witness :
  ResolveValue sampleGen 0 "m" (argumentSource 0)
    (MapType (Ident "string") (Ident "int")) None =
  Panics (UnrecognizedNativeType (MapType (Ident "string") (Ident "int")))
  /\ (forall v,
        ResolveValue sampleGen 3 "r" (argumentSource 0)
          (StructType
             [mkField ["Count"] (Ident "Celsius");
              mkField ["Items"] (StarExpr (ArrayType None (Ident "string")))])
          None <> Panics v).
Proof.
  split.
  - apply (proj1 (unrecognized_type_panics sampleGen 0 "m" (argumentSource 0)
                    (MapType (Ident "string") (Ident "int")) None)).
    reflexivity.
  - apply (proj2 (proj2 (unrecognized_type_panics sampleGen 3 "r"
                           (argumentSource 0) _ None)));
      [exact sampleGen_closed | reflexivity].
Defined.

Lemma record_skips_embedded_field_witness :
  ResolveValue sampleGen 0 "r" (argumentSource 0)
    (StructType [mkField [] (MapType (Ident "string") (Ident "int"))]) None =
  Returns
    (Some (Ident "r"),
     [AssignStmt [Ident "r"] DEFINE
        [CompositeLit
           (StructType [mkField [] (MapType (Ident "string") (Ident "int"))])]],
     None).
Proof.
  exact (proj1 (record_skips_embedded_field sampleGen 0 "r" (argumentSource 0)
                  (MapType (Ident "string") (Ident "int"))) None).
Defined.

(** ** The depth budget *)

Section Budget.
Variable gen : generator.
Variables rv1 rv2 : resolver_fn.
Hypothesis Hext : extends rv1 rv2.

Lemma extends_call name jsValue T dst :
  rv1 name jsValue T dst <> OutOfFuel ->
  rv2 name jsValue T dst = rv1 name jsValue T dst.
Proof. intros Hr. exact (Hext _ _ _ _ _ eq_refl Hr). Qed.

Lemma bind_cut_off {A B} (m : outcome A) (k : A -> outcome B) :
  m = OutOfFuel -> (m ≫= k) = OutOfFuel.
Proof. intros ->. reflexivity. Qed.

Lemma resolvePointer_extends name jsValue X dst r :
  resolvePointer rv1 name jsValue X dst = r ->
  r <> OutOfFuel ->
  resolvePointer rv2 name jsValue X dst = r.
Proof.
  intros <- Hr. unfold resolvePointer in *.
  destruct dst as [d |]; simpl in *;
    (rewrite extends_call; [reflexivity |]);
    intros Hcut; apply Hr; rewrite Hcut; reflexivity.
Qed.

Lemma resolveArray_extends name jsValue Len Elt dst r :
  resolveArray rv1 name jsValue Len Elt dst = r ->
  r <> OutOfFuel ->
  resolveArray rv2 name jsValue Len Elt dst = r.
Proof.
  intros <- Hr. unfold resolveArray in *.
  destruct Len as [l |], dst as [d |]; simpl in *;
    (rewrite extends_call; [reflexivity |]);
    intros Hcut; apply Hr; rewrite Hcut; reflexivity.
Qed.

Lemma recordEntriesLoop_extends name jsValue d entries acc r :
  recordEntriesLoop rv1 name jsValue d entries acc = r ->
  r <> OutOfFuel ->
  recordEntriesLoop rv2 name jsValue d entries acc = r.
Proof.
  revert acc r.
  induction entries as [| [n t] entries IH]; intros acc r; simpl.
  - intros <- _. reflexivity.
  - intros <- Hr.
    rewrite extends_call
      by (intros Hcut; apply Hr; rewrite Hcut; reflexivity).
    destruct (rv1 _ _ _ _) as [[[e body] [err |]] | |]; simpl in *;
      try reflexivity.
    apply IH; [reflexivity | exact Hr].
Qed.

Lemma resolveStruct_extends name jsValue Fields dst r :
  resolveStruct rv1 name jsValue Fields dst = r ->
  r <> OutOfFuel ->
  resolveStruct rv2 name jsValue Fields dst = r.
Proof.
  rewrite !resolveStruct_entries. intros <- Hr.
  rewrite (recordEntriesLoop_extends _ _ _ _ _ _ eq_refl); [reflexivity |].
  intros Hcut. apply Hr. rewrite Hcut. reflexivity.
Qed.

Lemma resolveIdent_extends name jsValue typeStr dst r :
  resolveIdent gen rv1 name jsValue typeStr dst = r ->
  r <> OutOfFuel ->
  resolveIdent gen rv2 name jsValue typeStr dst = r.
Proof.
  unfold resolveIdent.
  destruct (scalarCase typeStr) as [[method typeCast] |]; [tauto |].
  destruct (getTypeAlias gen typeStr) as [T | err]; [apply Hext | tauto].
Qed.

Lemma dispatch_extends : extends (dispatch gen rv1) (dispatch gen rv2).
Proof.
  intros name jsValue T dst r.
  destruct T; simpl; try tauto.
  - apply resolveIdent_extends.
  - apply resolvePointer_extends.
  - apply resolveArray_extends.
  - apply resolveStruct_extends.
Qed.

Lemma argEntriesLoop_extends entries st r :
  argEntriesLoop rv1 entries st = r ->
  r <> OutOfFuel ->
  argEntriesLoop rv2 entries st = r.
Proof.
  revert st r.
  induction entries as [| [n t] entries IH]; intros [[i args] acc] r; simpl.
  - intros <- _. reflexivity.
  - intros <- Hr.
    rewrite extends_call
      by (intros Hcut; apply Hr; rewrite Hcut; reflexivity).
    destruct (rv1 _ _ _ _) as [[[e body] err] | |]; simpl in *;
      try reflexivity.
    destruct (decide _); [| reflexivity].
    destruct err; [reflexivity |].
    apply IH; [reflexivity | exact Hr].
Qed.

Lemma resolveFuncArgsWith_extends params r :
  resolveFuncArgsWith rv1 params = r ->
  r <> OutOfFuel ->
  resolveFuncArgsWith rv2 params = r.
Proof.
  unfold resolveFuncArgsWith. rewrite !paramsLoop_entries. intros <- Hr.
  rewrite (argEntriesLoop_extends _ _ _ eq_refl); [reflexivity |].
  intros Hcut. apply Hr. rewrite Hcut. reflexivity.
Qed.
End Budget.

Lemma ResolveValue_extends_S gen fuel :
  extends (ResolveValue gen fuel) (ResolveValue gen (S fuel)).
Proof.
  induction fuel as [| fuel IH].
  - apply dispatch_extends. intros name jsValue T dst r <- Hr. contradiction.
  - apply dispatch_extends, IH.
Qed.

Lemma ResolveValue_extends gen fuel fuel' :
  fuel <= fuel' -> extends (ResolveValue gen fuel) (ResolveValue gen fuel').
Proof.
  induction 1 as [| fuel' _ IH].
  - intros name jsValue T dst r Hr _. exact Hr.
  - intros name jsValue T dst r Hr Hcut.
    apply ResolveValue_extends_S; [| exact Hcut].
    exact (IH _ _ _ _ _ Hr Hcut).
Qed.

(** X1.  What a call does within some depth budget, it does within every
    larger one: a result or a panic, once reached, does not depend on the
    budget.  The same holds for the driver of the argument list. *)
Theorem budget_monotone gen fuel fuel' :
  fuel <= fuel' ->
  (forall name jsValue nativeType dst r,
     ResolveValue gen fuel name jsValue nativeType dst = r ->
     r <> OutOfFuel ->
     ResolveValue gen fuel' name jsValue nativeType dst = r)
  /\ (forall params r,
        resolveFuncArgs gen fuel params = r ->
        r <> OutOfFuel ->
        resolveFuncArgs gen fuel' params = r).
Proof.
  intros Hle. split.
  - exact (ResolveValue_extends gen fuel fuel' Hle).
  - intros params. unfold resolveFuncArgs.
    apply resolveFuncArgsWith_extends, ResolveValue_extends, Hle.
Qed.

Lemma budget_monotone_witness :
  ResolveValue sampleGen 7 "t" (argumentSource 0) (Ident "Celsius") None =
  Returns (Some (castTo "int32" (readAs (argumentSource 0) "Int")), [], None).
Proof.
  apply (proj1 (budget_monotone sampleGen 2 7 ltac:(lia)) "t"
           (argumentSource 0) (Ident "Celsius") None);
    [vm_compute; reflexivity | discriminate].
Defined.

Section CutOff.
Variable gen : generator.
Variable rv : resolver_fn.

Lemma resolvePointer_cut_off name jsValue X dst :
  resolvePointer rv name jsValue X dst = OutOfFuel ->
  rv (name +:+ "Elt") jsValue X (Some (destination name dst)) = OutOfFuel.
Proof.
  unfold resolvePointer.
  destruct dst as [d |]; simpl;
    (destruct (rv _ _ _ _) as [[[e body] [err |]] | |]; simpl;
     [discriminate | discriminate | discriminate | reflexivity]).
Qed.

Lemma resolveArray_cut_off name jsValue Len Elt dst :
  resolveArray rv name jsValue Len Elt dst = OutOfFuel ->
  rv (name +:+ "Elt") (elementSource jsValue (name +:+ "Idx")) Elt
     (Some (IndexExpr (destination name dst) (Ident (name +:+ "Idx")))) =
  OutOfFuel.
Proof.
  unfold resolveArray, elementSource.
  destruct Len as [l |], dst as [d |]; simpl;
    (destruct (rv _ _ _ _) as [[[e body] [err |]] | |]; simpl;
     [discriminate | discriminate | discriminate | reflexivity]).
Qed.

Lemma recordEntriesLoop_cut_off name jsValue d entries acc :
  recordEntriesLoop rv name jsValue d entries acc = OutOfFuel ->
  exists n t,
    In (n, t) entries
    /\ rv (name +:+ n) (fieldSource jsValue n) t (Some (SelectorExpr d n)) =
       OutOfFuel.
Proof.
  revert acc.
  induction entries as [| [n t] entries IH]; intros acc; simpl.
  - discriminate.
  - destruct (rv _ _ _ _) as [[[e body] [err |]] | |] eqn:Hcall; simpl;
      try discriminate.
    + intros Hloop. destruct (IH _ Hloop) as (n' & t' & Hin & Hcut).
      exists n', t'. split; [right; exact Hin | exact Hcut].
    + intros _. exists n, t. split; [left; reflexivity | exact Hcall].
Qed.

Lemma resolveStruct_cut_off name jsValue Fields dst :
  resolveStruct rv name jsValue Fields dst = OutOfFuel ->
  exists n t,
    In (n, t) (namedEntries Fields)
    /\ rv (name +:+ n) (fieldSource jsValue n) t
         (Some (SelectorExpr (destination name dst) n)) = OutOfFuel.
Proof.
  rewrite resolveStruct_entries.
  destruct (recordEntriesLoop _ _ _ _ _ _) as [[err | rest] | |] eqn:Hloop;
    simpl; try discriminate.
  intros _. exact (recordEntriesLoop_cut_off _ _ _ _ _ Hloop).
Qed.

Lemma aliasFree_entries Fields n t :
  aliasFree gen (StructType Fields) = true ->
  In (n, t) (namedEntries Fields) ->
  aliasFree gen t = true /\ S (depth t) <= depth (StructType Fields).
Proof.
  simpl. intros Hall Hin.
  apply in_flat_map in Hin as (f & Hf & Hin).
  apply in_map_iff in Hin as (n' & [= _ <-] & _).
  rewrite forallb_forall in Hall. specialize (Hall f Hf).
  destruct f as [ns t]; simpl. split; [exact Hall |].
  apply le_n_S. clear Hall.
  induction Fields as [| g Fields IH]; [contradiction |].
  destruct Hf as [-> | Hf]; simpl; [lia |].
  specialize (IH Hf). lia.
Qed.

Lemma dispatch_completeTo n :
  (forall name jsValue T dst,
     aliasFree gen T = true -> S (depth T) <= n ->
     rv name jsValue T dst <> OutOfFuel) ->
  completeTo gen n (dispatch gen rv).
Proof.
  intros Hrv name jsValue T dst Hfree Hdepth.
  destruct T; simpl in *; try discriminate.
  - unfold resolveIdent, getTypeAlias.
    destruct (scalarCase Name) as [[method typeCast] |].
    + destruct dst; discriminate.
    + destruct (typeAliases gen !! Name); discriminate.
  - intros Hcut. apply resolvePointer_cut_off in Hcut.
    exact (Hrv _ _ _ _ Hfree Hdepth Hcut).
  - intros Hcut. apply resolveArray_cut_off in Hcut.
    exact (Hrv _ _ _ _ Hfree Hdepth Hcut).
  - intros Hcut.
    destruct (resolveStruct_cut_off _ _ _ _ Hcut) as (n' & t & Hin & Hcall).
    destruct (aliasFree_entries _ _ _ Hfree Hin) as [Hfree' Hdepth'].
    simpl in Hdepth'.
    refine (Hrv _ _ _ _ Hfree' _ Hcall). lia.
Qed.
End CutOff.

Lemma ResolveValue_completeTo gen fuel :
  completeTo gen fuel (ResolveValue gen fuel).
Proof.
  induction fuel as [| fuel IH]; simpl; apply dispatch_completeTo.
  - intros name jsValue T dst _ Hdepth. lia.
  - intros name jsValue T dst Hfree Hdepth. apply IH; [exact Hfree | lia].
Qed.

(** X2.  On a type without aliases to follow the recursion is structural: a
    depth budget equal to the nesting depth of the type is enough for
    [ResolveValue] to return or to panic. *)
Theorem alias_free_resolution_terminates
    gen fuel name jsValue nativeType dst :
  aliasFree gen nativeType = true ->
  depth nativeType <= fuel ->
  (exists r, ResolveValue gen fuel name jsValue nativeType dst = Returns r)
  \/ (exists v, ResolveValue gen fuel name jsValue nativeType dst = Panics v).
Proof.
  intros Hfree Hdepth.
  pose proof (ResolveValue_completeTo gen fuel name jsValue nativeType dst
                Hfree Hdepth) as Hcomplete.
  destruct (ResolveValue gen fuel name jsValue nativeType dst) as [r | v |].
  - left. exists r. reflexivity.
  - right. exists v. reflexivity.
  - contradiction.
Qed.

Lemma alias_free_resolution_terminates_witness :
  (exists r,
     ResolveValue sampleGen 3 "r" (argumentSource 0) sampleRecord None =
     Returns r)
  \/ (exists v,
        ResolveValue sampleGen 3 "r" (argumentSource 0) sampleRecord None =
        Panics v).
Proof.
  apply (alias_free_resolution_terminates sampleGen 3 "r" (argumentSource 0)
           sampleRecord None); [reflexivity | vm_compute; lia].
Defined.

(** X3.  A name whose entry in the alias table is the name itself is resolved
    by a call on the same name, and so on without end: the call is cut
    off at every depth budget. *)
Theorem self_alias_never_returns gen s fuel name jsValue dst :
  scalarCase s = None ->
  typeAliases gen !! s = Some (Ident s) ->
  ResolveValue gen fuel name jsValue (Ident s) dst = OutOfFuel.
Proof.
  intros Hs Hlook. revert name.
  induction fuel as [| fuel IH]; intros name;
    rewrite ResolveValue_Ident, (resolveIdent_alias _ _ _ _ _ _ _ Hs Hlook).
  - reflexivity.
  - apply IH.
Qed.

Lemma self_alias_never_returns_witness :
  ResolveValue (mkGenerator (<["Loop" := Ident "Loop"]> ∅)) 9 "t"
    (argumentSource 0) (Ident "Loop") None = OutOfFuel.
Proof.
  apply (self_alias_never_returns (mkGenerator (<["Loop" := Ident "Loop"]> ∅))
           "Loop" 9 "t" (argumentSource 0) None); reflexivity.
Defined.

(** ** The final reference *)

Lemma dispatch_returnsDestination gen rv :
  returnsDestination rv -> returnsDestination (dispatch gen rv).
Proof.
  intros Hrv name jsValue T dst e stmts.
  destruct T; simpl; try discriminate.
  - unfold resolveIdent, getTypeAlias.
    destruct (scalarCase Name) as [[method typeCast] |].
    + destruct dst as [d |]; intros [= <- _]; (split; [eexists; reflexivity |]).
      * intros d' [= <-]. reflexivity.
      * discriminate.
    + destruct (typeAliases gen !! Name) as [T |]; [apply Hrv | discriminate].
  - intros Hres.
    destruct (resolvePointer_inv _ _ _ _ _ _ Hres) as (e' & body & err & Hc).
    destruct err as [err |].
    + rewrite (resolvePointer_fails _ _ _ _ _ _ _ _ Hc) in Hres. discriminate.
    + rewrite (resolvePointer_returns _ _ _ _ _ _ _ Hc) in Hres.
      injection Hres as <- _. split; [eexists; reflexivity |].
      intros d ->. reflexivity.
  - unfold resolveArray.
    destruct Len as [l |], dst as [d |]; simpl;
      (destruct (rv _ _ _ _) as [[[e' body] [err |]] | |]; simpl;
       try discriminate);
      intros [= <- _]; (split; [eexists; reflexivity |]);
      try (intros d' [= <-]; reflexivity); discriminate.
  - rewrite resolveStruct_entries.
    destruct (recordEntriesLoop _ _ _ _ _ _) as [[err | rest] | |]; simpl;
      try discriminate.
    intros [= <- _]. split; [eexists; reflexivity |].
    intros d ->. reflexivity.
Qed.

Lemma ResolveValue_returnsDestination gen fuel :
  returnsDestination (ResolveValue gen fuel).
Proof.
  induction fuel as [| fuel IH]; simpl; apply dispatch_returnsDestination.
  - intros name jsValue T dst e stmts. discriminate.
  - exact IH.
Qed.

Lemma dispatch_composite_reference gen rv name jsValue T dst e stmts :
  isComposite T = true ->
  dispatch gen rv name jsValue T dst = Returns (e, stmts, None) ->
  e = Some (destination name dst).
Proof.
  intros Hcomp.
  destruct T; simpl in Hcomp; try discriminate Hcomp; simpl.
  - intros Hres.
    destruct (resolvePointer_inv _ _ _ _ _ _ Hres) as (e' & body & err & Hc).
    destruct err as [err |].
    + rewrite (resolvePointer_fails _ _ _ _ _ _ _ _ Hc) in Hres. discriminate.
    + rewrite (resolvePointer_returns _ _ _ _ _ _ _ Hc) in Hres.
      injection Hres as <- _. reflexivity.
  - unfold resolveArray.
    destruct Len as [l |], dst as [d |]; simpl;
      (destruct (rv _ _ _ _) as [[[e' body] [err |]] | |]; simpl;
       try discriminate);
      intros [= <- _]; reflexivity.
  - rewrite resolveStruct_entries.
    destruct (recordEntriesLoop _ _ _ _ _ _) as [[err | rest] | |]; simpl;
      try discriminate.
    intros [= <- _]. reflexivity.
Qed.

(** X4.  A resolution that succeeds always hands back an expression; it
    is the destination whenever one was supplied, and for a pointer, a
    sequence or a record without a destination it is the local declared
    under the supplied name. *)
Theorem success_returns_destination
    gen fuel name jsValue nativeType dst e stmts :
  ResolveValue gen fuel name jsValue nativeType dst =
    Returns (e, stmts, None) ->
  is_Some e
  /\ (forall d, dst = Some d -> e = Some d)
  /\ (isComposite nativeType = true -> e = Some (destination name dst)).
Proof.
  intros Hres.
  destruct (ResolveValue_returnsDestination gen fuel _ _ _ _ _ _ Hres)
    as [Hsome Hdst].
  split; [exact Hsome |]. split; [exact Hdst |].
  intros Hcomp. rewrite ResolveValue_unfold in Hres.
  exact (dispatch_composite_reference _ _ _ _ _ _ _ _ Hcomp Hres).
Qed.

Lemma success_returns_destination_witness :
  is_Some (Some (SelectorExpr (Ident "out") "v"))
  /\ (forall d,
        Some (SelectorExpr (Ident "out") "v") = Some d ->
        Some (SelectorExpr (Ident "out") "v") = Some d)
  /\ (isComposite (ArrayType None (Ident "Celsius")) = true ->
      Some (SelectorExpr (Ident "out") "v") =
      Some (destination "xs" (Some (SelectorExpr (Ident "out") "v")))).
Proof.
  apply (success_returns_destination sampleGen 3 "xs" (argumentSource 0)
           (ArrayType None (Ident "Celsius"))
           (Some (SelectorExpr (Ident "out") "v"))
           (Some (SelectorExpr (Ident "out") "v"))
           [lengthQuery "xsLen" (argumentSource 0);
            countedLoop "xsIdx" (Ident "xsLen")
              [AssignStmt
                 [IndexExpr (SelectorExpr (Ident "out") "v") (Ident "xsIdx")]
                 ASSIGN
                 [castTo "int32"
                    (readAs (elementSource (argumentSource 0) "xsIdx")
                       "Int")]]]).
  vm_compute. reflexivity.
Defined.

(** X5.  A name with an entry in the alias table is resolved under its
    own name: the name the caller supplied is dropped.  When the entry is
    a pointer, a sequence or a record and no destination is supplied, the
    local that is declared and handed back is therefore named after the
    type, whatever the caller's name was. *)
Theorem alias_resolved_under_type_name
    gen fuel name jsValue typeStr nativeType e stmts :
  scalarCase typeStr = None ->
  typeAliases gen !! typeStr = Some nativeType ->
  isComposite nativeType = true ->
  ResolveValue gen fuel name jsValue (Ident typeStr) None =
    Returns (e, stmts, None) ->
  e = Some (Ident typeStr)
  /\ forall name',
       ResolveValue gen fuel name' jsValue (Ident typeStr) None =
       Returns (Some (Ident typeStr), stmts, None).
Proof.
  intros Hs Hlook Hcomp Hres.
  rewrite ResolveValue_Ident, (resolveIdent_alias _ _ _ _ _ _ _ Hs Hlook)
    in Hres.
  assert (e = Some (Ident typeStr)) as ->.
  { destruct fuel as [| fuel]; [discriminate Hres |].
    rewrite ResolveValue_unfold in Hres.
    exact (dispatch_composite_reference _ _ _ _ _ _ _ _ Hcomp Hres). }
  split; [reflexivity |]. intros name'.
  rewrite ResolveValue_Ident, (resolveIdent_alias _ _ _ _ _ _ _ Hs Hlook).
  exact Hres.
Qed.

Lemma alias_resolved_under_type_name_witness :
  Some (Ident "Point") = Some (Ident "Point")
  /\ forall name',
       ResolveValue
         (mkGenerator
            (<["Point" := StructType [mkField ["X"; "Y"] (Ident "int")]]> ∅))
         2 name' (argumentSource 0) (Ident "Point") None =
       Returns
         (Some (Ident "Point"),
          [AssignStmt [Ident "Point"] DEFINE
             [CompositeLit (StructType [mkField ["X"; "Y"] (Ident "int")])];
           AssignStmt [SelectorExpr (Ident "Point") "X"] ASSIGN
             [readAs (fieldSource (argumentSource 0) "X") "Int"];
           AssignStmt [SelectorExpr (Ident "Point") "Y"] ASSIGN
             [readAs (fieldSource (argumentSource 0) "Y") "Int"]],
          None).
Proof.
  apply (alias_resolved_under_type_name
           (mkGenerator
              (<["Point" := StructType [mkField ["X"; "Y"] (Ident "int")]]> ∅))
           2 "p" (argumentSource 0) "Point"
           (StructType [mkField ["X"; "Y"] (Ident "int")]));
    vm_compute; reflexivity.
Defined.

(** ** Where errors come from *)

Section ErrorOrigin.
Variable gen : generator.
Variable rv : resolver_fn.

Lemma recordEntriesLoop_error_inv name jsValue d entries acc err :
  recordEntriesLoop rv name jsValue d entries acc = Returns (inl err) ->
  exists n t e body cause,
    In (n, t) entries
    /\ rv (name +:+ n) (fieldSource jsValue n) t (Some (SelectorExpr d n)) =
       Returns (e, body, Some cause)
    /\ err = UnresolvedStructField t cause.
Proof.
  revert acc.
  induction entries as [| [n t] entries IH]; intros acc; simpl.
  - discriminate.
  - destruct (rv _ _ _ _) as [[[e body] [cause |]] | |] eqn:Hcall; simpl;
      try discriminate.
    + intros [= <-]. exists n, t, e, body, cause.
      split; [left; reflexivity |]. split; [exact Hcall | reflexivity].
    + intros Hloop.
      destruct (IH _ Hloop) as (n' & t' & e' & body' & cause & Hin & Hc & ->).
      exists n', t', e', body', cause.
      split; [right; exact Hin |]. split; [exact Hc | reflexivity].
Qed.

Lemma argEntriesLoop_error_inv entries st err :
  argEntriesLoop rv entries st = Returns (inl err) ->
  exists i n t e body cause,
    In (n, t) entries
    /\ rv n (argumentSource i) t None = Returns (e, body, Some cause)
    /\ err = UnresolvedArgument n t cause.
Proof.
  revert st.
  induction entries as [| [n t] entries IH]; intros [[i args] acc]; simpl.
  - discriminate.
  - destruct (rv _ _ _ _) as [[[e body] cause] | |] eqn:Hcall; simpl;
      try discriminate.
    destruct (decide _); [| discriminate].
    destruct cause as [cause |].
    + intros [= <-]. exists i, n, t, e, body, cause.
      split; [left; reflexivity |]. split; [exact Hcall | reflexivity].
    + intros Hloop.
      destruct (IH _ Hloop)
        as (i' & n' & t' & e' & body' & cause & Hin & Hc & ->).
      exists i', n', t', e', body', cause.
      split; [right; exact Hin |]. split; [exact Hc | reflexivity].
Qed.

Lemma dispatch_failsFromLookupOnly :
  failsFromLookupOnly gen rv -> failsFromLookupOnly gen (dispatch gen rv).
Proof.
  intros Hrv name jsValue T dst e stmts err.
  destruct T; simpl; try discriminate.
  - unfold resolveIdent.
    destruct (scalarCase Name) as [[method typeCast] |] eqn:Hs.
    + destruct dst; discriminate.
    + destruct (getTypeAlias gen Name) as [T | lookupErr] eqn:Hlook.
      * apply Hrv.
      * intros [= _ _ <-]. exists Name, lookupErr. repeat split; assumption.
  - unfold resolvePointer.
    destruct dst as [d |]; simpl;
      (destruct (rv _ _ _ _) as [[[e' body] [cause |]] | |] eqn:Hcall; simpl;
       try discriminate);
      intros [= _ _ <-];
      destruct (Hrv _ _ _ _ _ _ _ Hcall) as (s & lookupErr & Hs & Hl & Hroot);
      exists s, lookupErr; repeat split; assumption.
  - unfold resolveArray.
    destruct Len as [l |], dst as [d |]; simpl;
      (destruct (rv _ _ _ _) as [[[e' body] [cause |]] | |] eqn:Hcall; simpl;
       try discriminate);
      intros [= _ _ <-];
      destruct (Hrv _ _ _ _ _ _ _ Hcall) as (s & lookupErr & Hs & Hl & Hroot);
      exists s, lookupErr; repeat split; assumption.
  - rewrite resolveStruct_entries.
    destruct (recordEntriesLoop _ _ _ _ _ _) as [[err' | rest] | |] eqn:Hloop;
      simpl; try discriminate.
    intros [= _ _ <-].
    destruct (recordEntriesLoop_error_inv _ _ _ _ _ _ Hloop)
      as (n & t & e' & body & cause & _ & Hcall & ->).
    destruct (Hrv _ _ _ _ _ _ _ Hcall) as (s & lookupErr & Hs & Hl & Hroot).
    exists s, lookupErr. repeat split; assumption.
Qed.
End ErrorOrigin.

Lemma ResolveValue_failsFromLookupOnly gen fuel :
  failsFromLookupOnly gen (ResolveValue gen fuel).
Proof.
  induction fuel as [| fuel IH]; simpl; apply dispatch_failsFromLookupOnly.
  - intros name jsValue T dst e stmts err. discriminate.
  - exact IH.
Qed.

(** X6.  Every error goes back to one failed lookup: under the headings
    the composite resolvers wrap around it, the error returned by
    [ResolveValue] is the unresolved-identifier error of a name that is
    no scalar name and that [getTypeAlias] rejected.  The driver adds one
    more heading, naming a parameter of the list and its type, and fails
    for no other reason. *)
Theorem errors_come_from_lookups gen fuel :
  (forall name jsValue nativeType dst e stmts err,
     ResolveValue gen fuel name jsValue nativeType dst =
       Returns (e, stmts, Some err) ->
     fromFailedLookup gen err)
  /\ (forall params args stmts err,
        resolveFuncArgs gen fuel params = Returns (args, stmts, Some err) ->
        exists n t cause,
          In (n, t) (namedEntries params)
          /\ err = UnresolvedArgument n t cause
          /\ fromFailedLookup gen cause).
Proof.
  split.
  - apply ResolveValue_failsFromLookupOnly.
  - intros params args stmts err. unfold resolveFuncArgs, resolveFuncArgsWith.
    rewrite paramsLoop_entries.
    destruct (argEntriesLoop _ _ _) as [[err' | [[i args'] acc]] | |] eqn:Hloop;
      simpl; try discriminate.
    intros [= _ _ <-].
    destruct (argEntriesLoop_error_inv _ _ _ _ Hloop)
      as (i & n & t & e & body & cause & Hin & Hcall & ->).
    exists n, t, cause. split; [exact Hin |]. split; [reflexivity |].
    exact (ResolveValue_failsFromLookupOnly gen fuel _ _ _ _ _ _ _ Hcall).
Qed.

Lemma errors_come_from_lookups_witness :
  fromFailedLookup sampleGen
    (UnresolvedPointerElement (ArrayType None (Ident "Kelvin"))
       (UnresolvedArrayElement (Ident "Kelvin")
          (UnresolvedIdentifier (NotFound "Kelvin")))).
Proof.
  apply (proj1 (errors_come_from_lookups sampleGen 2) "p" (argumentSource 0)
           (StarExpr (ArrayType None (Ident "Kelvin"))) None None []).
  vm_compute. reflexivity.
Defined.

(** ** What the verdict depends on *)

Section Verdict.
Variable gen : generator.
Variable rv : resolver_fn.

Lemma verdict_resolvePointer name jsValue X dst :
  verdict (resolvePointer rv name jsValue X dst) =
  wrapVerdict (UnresolvedPointerElement X)
    (verdict (rv (name +:+ "Elt") jsValue X (Some (destination name dst)))).
Proof.
  unfold resolvePointer.
  destruct dst as [d |]; simpl;
    (destruct (rv _ _ _ _) as [[[e body] [err |]] | |]; reflexivity).
Qed.

Lemma verdict_resolveArray name jsValue Len Elt dst :
  verdict (resolveArray rv name jsValue Len Elt dst) =
  wrapVerdict (UnresolvedArrayElement Elt)
    (verdict
       (rv (name +:+ "Elt") (elementSource jsValue (name +:+ "Idx")) Elt
          (Some (IndexExpr (destination name dst) (Ident (name +:+ "Idx")))))).
Proof.
  unfold resolveArray, elementSource.
  destruct Len as [l |], dst as [d |]; simpl;
    (destruct (rv _ _ _ _) as [[[e body] [err |]] | |]; reflexivity).
Qed.

Lemma verdict_resolveStruct name jsValue Fields dst :
  verdict (resolveStruct rv name jsValue Fields dst) =
  loopVerdict
    (recordEntriesLoop rv name jsValue (destination name dst)
       (namedEntries Fields) (recordAllocation name dst Fields)).
Proof.
  rewrite resolveStruct_entries.
  destruct (recordEntriesLoop _ _ _ _ _ _) as [[err | rest] | |]; reflexivity.
Qed.

Hypothesis Hblind : handleBlind rv.

Lemma recordEntriesLoop_blind entries :
  forall name jsValue d acc name' jsValue' d' acc',
    loopVerdict (recordEntriesLoop rv name jsValue d entries acc) =
    loopVerdict (recordEntriesLoop rv name' jsValue' d' entries acc').
Proof.
  induction entries as [| [n t] entries IH];
    intros name jsValue d acc name' jsValue' d' acc'; simpl.
  - reflexivity.
  - pose proof (Hblind t (name +:+ n) (fieldSource jsValue n)
                  (Some (SelectorExpr d n)) (name' +:+ n)
                  (fieldSource jsValue' n) (Some (SelectorExpr d' n)))
      as Hsame.
    destruct (rv (name +:+ n) _ _ _) as [[[e body] [err |]] | |];
      destruct (rv (name' +:+ n) _ _ _) as [[[e' body'] [err' |]] | |];
      simpl in *; try discriminate Hsame; try congruence.
    apply IH.
Qed.

Lemma dispatch_handleBlind : handleBlind (dispatch gen rv).
Proof.
  intros T name jsValue dst name' jsValue' dst'.
  destruct T; simpl; try reflexivity.
  - unfold resolveIdent.
    destruct (scalarCase Name) as [[method typeCast] |].
    + destruct dst, dst'; reflexivity.
    + destruct (getTypeAlias gen Name) as [T | err]; [apply Hblind |].
      reflexivity.
  - rewrite !verdict_resolvePointer. f_equal. apply Hblind.
  - rewrite !verdict_resolveArray. f_equal. apply Hblind.
  - rewrite !verdict_resolveStruct. apply recordEntriesLoop_blind.
Qed.
End Verdict.

(** X7.  Whether a type resolves, and with which error or panic it does
    not, is decided by the type and the alias table alone: the name, the
    source and the destination handed to [ResolveValue] change the
    generated code, never the verdict. *)
Theorem verdict_depends_on_type_only
    gen fuel nativeType name jsValue dst name' jsValue' dst' :
  verdict (ResolveValue gen fuel name jsValue nativeType dst) =
  verdict (ResolveValue gen fuel name' jsValue' nativeType dst').
Proof.
  revert nativeType name jsValue dst name' jsValue' dst'.
  induction fuel as [| fuel IH]; simpl; apply dispatch_handleBlind.
  - intros T name jsValue dst name' jsValue' dst'. reflexivity.
  - exact IH.
Qed.

(** ** The slots of the driver *)

Section Slots.
Variable rv : resolver_fn.

Lemma argEntriesLoop_success_inv entries :
  forall i args acc st',
    argEntriesLoop rv entries (i, args, acc) = Returns (inr st') ->
    exists results, argumentsResolved rv i entries results.
Proof.
  induction entries as [| [n t] entries IH]; intros i args acc st'; simpl.
  - intros _. exists []. constructor.
  - destruct (rv _ _ _ _) as [[[e body] err] | |] eqn:Hcall; simpl;
      try discriminate.
    destruct (decide _); [| discriminate].
    destruct err as [err |]; [discriminate |].
    intros Hloop. destruct (IH _ _ _ _ Hloop) as [results Hall].
    exists ((e, body) :: results). constructor; [exact Hcall | exact Hall].
Qed.

Lemma argEntriesLoop_panic_inv entries :
  forall i args acc v,
    i + length entries <= length args ->
    argEntriesLoop rv entries (i, args, acc) = Panics v ->
    exists n t j, rv n (argumentSource j) t None = Panics v.
Proof.
  induction entries as [| [n t] entries IH]; intros i args acc v Hlen; simpl.
  - discriminate.
  - simpl in Hlen.
    destruct (rv _ _ _ _) as [[[e body] err] | v' |] eqn:Hcall; simpl;
      try discriminate.
    + destruct (decide (i < length args)) as [Hi | Hi]; [| lia].
      destruct err as [err |]; [discriminate |].
      apply IH. rewrite length_insert. lia.
    + intros [= <-]. exists n, t, i. exact Hcall.
Qed.

Lemma resolveFuncArgsWith_inv params args stmts :
  resolveFuncArgsWith rv params = Returns (args, stmts, None) ->
  exists results,
    argumentsResolved rv 0 (namedEntries params) results
    /\ args = map fst results ++
              replicate (NumFields params - length results) None
    /\ stmts = concat (map snd results).
Proof.
  intros Hres. pose proof Hres as Hres'.
  unfold resolveFuncArgsWith in Hres. rewrite paramsLoop_entries in Hres.
  destruct (argEntriesLoop _ _ _) as [[err | st'] | |] eqn:Hloop;
    simpl in Hres; try discriminate Hres.
  destruct (argEntriesLoop_success_inv _ _ _ _ _ Hloop) as [results Hall].
  exists results. split; [exact Hall |].
  rewrite (resolveFuncArgsWith_returns _ _ _ Hall) in Hres'.
  injection Hres' as <- <-. split; reflexivity.
Qed.
End Slots.

(** X8.  The driver never stores past the end of its slice of
    expressions: its only panic is the one of the type switch on an
    unhandled type.  When it succeeds, the slice has one slot per
    parameter as [NumFields] counts them, whether or not each was
    resolved. *)
Theorem driver_slots_in_range gen fuel params :
  (forall v,
     resolveFuncArgs gen fuel params = Panics v ->
     exists T, v = UnrecognizedNativeType T /\ handledVariant T = false)
  /\ (forall args stmts,
        resolveFuncArgs gen fuel params = Returns (args, stmts, None) ->
        length args = NumFields params).
Proof.
  split.
  - intros v. unfold resolveFuncArgs, resolveFuncArgsWith.
    rewrite paramsLoop_entries.
    destruct (argEntriesLoop _ _ _) as [[err | [[i args'] acc]] | v' |]
      eqn:Hloop; simpl; try discriminate.
    intros [= <-].
    apply argEntriesLoop_panic_inv in Hloop as (n & t & j & Hcall).
    + exact (ResolveValue_panicsOnUnhandledOnly gen fuel _ _ _ _ _ Hcall).
    + rewrite length_replicate. apply namedEntries_length_le.
  - intros args stmts Hres.
    destruct (resolveFuncArgsWith_inv _ _ _ _ Hres)
      as (results & Hall & -> & _).
    pose proof (namedEntries_length_le params) as Hle.
    rewrite <- (argumentsResolved_length _ _ _ _ Hall) in Hle.
    rewrite length_app, length_map, length_replicate. lia.
Qed.

(** X12.  The driver succeeds exactly when every named parameter, in
    order and numbered from 0, resolves from [args[i]] without a
    destination; its expressions and statements are then those of the
    parameters in that order, followed by the nil slots of the entries
    without names. *)
Theorem driver_succeeds_iff gen fuel params args stmts :
  resolveFuncArgs gen fuel params = Returns (args, stmts, None) <->
  exists results,
    argumentsResolved (ResolveValue gen fuel) 0 (namedEntries params) results
    /\ args = map fst results ++
              replicate (NumFields params - length results) None
    /\ stmts = concat (map snd results).
Proof.
  split.
  - apply resolveFuncArgsWith_inv.
  - intros (results & Hall & -> & ->).
    exact (resolveFuncArgsWith_returns _ _ _ Hall).
Qed.

Lemma NumFields_unnamed params :
  Forall (fun p => Names p = []) params ->
  namedEntries params = [] /\ NumFields params = length params.
Proof.
  induction 1 as [| p params Hp _ [IHe IHn]]; [split; reflexivity |].
  rewrite namedEntries_cons, NumFields_cons, Hp, IHe, IHn.
  split; reflexivity.
Qed.

(** X9.  A parameter list in which no entry has a name (a signature
    written with types only) is not resolved at all: whatever the types,
    unhandled ones included, the driver returns one nil expression per
    entry, no statement and no error. *)
Theorem unnamed_parameters_are_not_resolved gen fuel params :
  Forall (fun p => Names p = []) params ->
  resolveFuncArgs gen fuel params =
  Returns (replicate (length params) None, [], None).
Proof.
  intros Hunnamed.
  destruct (NumFields_unnamed _ Hunnamed) as [Hentries Hnum].
  unfold resolveFuncArgs, resolveFuncArgsWith.
  rewrite paramsLoop_entries, Hentries, Hnum. reflexivity.
Qed.

Lemma unnamed_parameters_are_not_resolved_witness :
  resolveFuncArgs sampleGen 0
    [mkField [] (Ident "bool");
     mkField [] (MapType (Ident "string") (Ident "int"))] =
  Returns ([None; None], [], None).
Proof.
  apply (unnamed_parameters_are_not_resolved sampleGen 0
           [mkField [] (Ident "bool");
            mkField [] (MapType (Ident "string") (Ident "int"))]).
  repeat constructor.
Defined.

(** ** The record, both ways *)

Lemma recordEntriesLoop_success_inv rv name jsValue d entries :
  forall acc r,
    recordEntriesLoop rv name jsValue d entries acc = Returns (inr r) ->
    exists bodies, Forall2 (fieldResolved rv name jsValue d) entries bodies.
Proof.
  induction entries as [| [n t] entries IH]; intros acc r; simpl.
  - intros _. exists []. constructor.
  - destruct (rv _ _ _ _) as [[[e body] [err |]] | |] eqn:Hcall; simpl;
      try discriminate.
    intros Hloop. destruct (IH _ _ Hloop) as [bodies Hall].
    exists (body :: bodies). constructor; [| exact Hall].
    exists e. exact Hcall.
Qed.

Lemma resolveStruct_inv rv name jsValue Fields dst e stmts :
  resolveStruct rv name jsValue Fields dst = Returns (e, stmts, None) ->
  exists bodies,
    Forall2 (fieldResolved rv name jsValue (destination name dst))
      (namedEntries Fields) bodies
    /\ e = Some (destination name dst)
    /\ stmts = recordAllocation name dst Fields ++ concat bodies.
Proof.
  intros Hres. pose proof Hres as Hres'.
  rewrite resolveStruct_entries in Hres.
  destruct (recordEntriesLoop _ _ _ _ _ _) as [[err | rest] | |] eqn:Hloop;
    simpl in Hres; try discriminate Hres.
  destruct (recordEntriesLoop_success_inv _ _ _ _ _ _ _ Hloop)
    as [bodies Hall].
  exists bodies. split; [exact Hall |].
  rewrite (resolveStruct_returns _ _ _ _ _ _ Hall) in Hres'.
  injection Hres' as <- <-. split; reflexivity.
Qed.

(** X11.  A record resolves exactly when every one of its named fields
    does, each read by [Get] of its name into the field of the
    destination; the result is then the destination with the allocation
    (when there was no destination) and the statements of the fields in
    order.  One field that fails, panics or is cut off is enough for the
    record not to resolve. *)
Theorem record_resolves_iff gen fuel name jsValue Fields dst e stmts :
  ResolveValue gen (S fuel) name jsValue (StructType Fields) dst =
    Returns (e, stmts, None) <->
  exists bodies,
    Forall2
      (fieldResolved (ResolveValue gen fuel) name jsValue
         (destination name dst))
      (namedEntries Fields) bodies
    /\ e = Some (destination name dst)
    /\ stmts = recordAllocation name dst Fields ++ concat bodies.
Proof.
  rewrite ResolveValue_StructType. split.
  - apply resolveStruct_inv.
  - intros (bodies & Hall & -> & ->).
    exact (resolveStruct_returns _ _ _ _ _ _ Hall).
Qed.

(** ** Storage *)

Lemma storageTotal_app l1 l2 :
  storageTotal (l1 ++ l2) = storageTotal l1 + storageTotal l2.
Proof. unfold storageTotal. rewrite map_app. apply list_sum_app. Qed.

Lemma storageTotal_concat bodies :
  Forall (fun body => storageTotal body = 0) bodies ->
  storageTotal (concat bodies) = 0.
Proof.
  induction 1 as [| body bodies Hbody _ IH]; [reflexivity |].
  simpl. rewrite storageTotal_app, Hbody, IH. reflexivity.
Qed.

Lemma storageTotal_kindGuard jsValue body :
  storageTotal [kindGuard jsValue body] = storageTotal body.
Proof. unfold storageTotal. simpl. lia. Qed.

Lemma storageTotal_countedLoop counter bound body :
  storageTotal [countedLoop counter bound body] = storageTotal body.
Proof. unfold storageTotal. simpl. lia. Qed.

Lemma storageTotal_sequenceQuery name jsValue Len :
  storageTotal (sequenceQuery name jsValue Len) = 0.
Proof. destruct Len; reflexivity. Qed.

Lemma storageTotal_sequenceStorage name Len Elt :
  storageTotal (sequenceStorage name Len Elt None) = 1.
Proof. destruct Len; reflexivity. Qed.

Section Storage.
Variable gen : generator.
Variable rv : resolver_fn.
Hypothesis Hrv : fillsDestination rv.

Lemma fields_fill_destination name jsValue d entries bodies :
  Forall2 (fieldResolved rv name jsValue d) entries bodies ->
  storageTotal (concat bodies) = 0.
Proof.
  intros Hall. apply storageTotal_concat.
  induction Hall as [| entry body entries bodies [e He] _ IH];
    constructor; [exact (Hrv _ _ _ _ _ _ He) | exact IH].
Qed.

Lemma resolvePointer_storage name jsValue X dst e stmts :
  resolvePointer rv name jsValue X dst = Returns (e, stmts, None) ->
  storageTotal stmts = match dst with Some _ => 0 | None => 1 end.
Proof.
  intros Hres.
  destruct (resolvePointer_inv _ _ _ _ _ _ Hres) as (e' & body & err & Hc).
  destruct err as [err |].
  - rewrite (resolvePointer_fails _ _ _ _ _ _ _ _ Hc) in Hres. discriminate.
  - rewrite (resolvePointer_returns _ _ _ _ _ _ _ Hc) in Hres.
    injection Hres as _ <-.
    rewrite storageTotal_app, storageTotal_kindGuard, (Hrv _ _ _ _ _ _ Hc).
    destruct dst; reflexivity.
Qed.

Lemma resolveArray_inv name jsValue Len Elt dst r :
  resolveArray rv name jsValue Len Elt dst = Returns r ->
  exists e body err,
    rv (name +:+ "Elt") (elementSource jsValue (name +:+ "Idx")) Elt
       (Some (IndexExpr (destination name dst) (Ident (name +:+ "Idx")))) =
    Returns (e, body, err).
Proof.
  unfold resolveArray, elementSource.
  destruct Len as [l |], dst as [d |]; simpl;
    (destruct (rv _ _ _ _) as [[[e body] err] | |]; simpl;
     [eauto | discriminate | discriminate]).
Qed.

Lemma resolveArray_storage name jsValue Len Elt dst e stmts :
  resolveArray rv name jsValue Len Elt dst = Returns (e, stmts, None) ->
  storageTotal stmts = match dst with Some _ => 0 | None => 1 end.
Proof.
  intros Hres.
  destruct (resolveArray_inv _ _ _ _ _ _ Hres) as (e' & body & err & Hc).
  destruct err as [err |].
  - rewrite (resolveArray_fails _ _ _ _ _ _ _ _ _ Hc) in Hres. discriminate.
  - rewrite (resolveArray_returns _ _ _ _ _ _ _ _ Hc) in Hres.
    injection Hres as _ <-.
    rewrite !storageTotal_app, storageTotal_countedLoop,
      storageTotal_sequenceQuery, (Hrv _ _ _ _ _ _ Hc).
    destruct dst; [reflexivity |].
    rewrite storageTotal_sequenceStorage. reflexivity.
Qed.

Lemma resolveStruct_storage name jsValue Fields dst e stmts :
  resolveStruct rv name jsValue Fields dst = Returns (e, stmts, None) ->
  storageTotal stmts = match dst with Some _ => 0 | None => 1 end.
Proof.
  intros Hres.
  destruct (resolveStruct_inv _ _ _ _ _ _ _ Hres) as (bodies & Hall & _ & ->).
  rewrite storageTotal_app, (fields_fill_destination _ _ _ _ _ Hall).
  destruct dst; reflexivity.
Qed.

Lemma dispatch_fillsDestination : fillsDestination (dispatch gen rv).
Proof.
  intros name jsValue T d e stmts.
  destruct T; simpl; try discriminate.
  - unfold resolveIdent.
    destruct (scalarCase Name) as [[method typeCast] |].
    + intros [= _ <-]. reflexivity.
    + destruct (getTypeAlias gen Name) as [T | err]; [apply Hrv |].
      discriminate.
  - apply resolvePointer_storage.
  - apply resolveArray_storage.
  - apply resolveStruct_storage.
Qed.

Lemma dispatch_composite_storage name jsValue T e stmts :
  isComposite T = true ->
  dispatch gen rv name jsValue T None = Returns (e, stmts, None) ->
  storageTotal stmts = 1.
Proof.
  intros Hcomp.
  destruct T; simpl in Hcomp; try discriminate Hcomp; simpl.
  - apply resolvePointer_storage.
  - apply resolveArray_storage.
  - apply resolveStruct_storage.
Qed.

Lemma dispatch_storage_le name jsValue T e stmts :
  (forall name jsValue T e stmts,
     rv name jsValue T None = Returns (e, stmts, None) ->
     storageTotal stmts <= 1) ->
  dispatch gen rv name jsValue T None = Returns (e, stmts, None) ->
  storageTotal stmts <= 1.
Proof.
  intros Hle.
  destruct (isComposite T) eqn:Hcomp.
  - intros Hres. rewrite (dispatch_composite_storage _ _ _ _ _ Hcomp Hres).
    constructor.
  - destruct T; simpl in Hcomp; try discriminate Hcomp; simpl;
      try discriminate.
    unfold resolveIdent.
    destruct (scalarCase Name) as [[method typeCast] |].
    + intros [= _ <-]. unfold storageTotal. simpl. lia.
    + destruct (getTypeAlias gen Name) as [T | err]; [apply Hle |].
      discriminate.
Qed.
End Storage.

Lemma ResolveValue_fillsDestination gen fuel :
  fillsDestination (ResolveValue gen fuel).
Proof.
  induction fuel as [| fuel IH]; simpl; apply dispatch_fillsDestination.
  - intros name jsValue T d e stmts. discriminate.
  - exact IH.
Qed.

Lemma ResolveValue_storage_le gen fuel :
  forall name jsValue T e stmts,
    ResolveValue gen fuel name jsValue T None = Returns (e, stmts, None) ->
    storageTotal stmts <= 1.
Proof.
  induction fuel as [| fuel IH]; intros name jsValue T e stmts; simpl.
  - apply dispatch_storage_le.
    + intros n j T' d e' s'. discriminate.
    + intros n j T' e' s'. discriminate.
  - apply dispatch_storage_le.
    + apply ResolveValue_fillsDestination.
    + exact IH.
Qed.



(** ** Aliases and pointers, level by level *)

(** X13.  Aliases are followed one call per entry and leave no trace in
    the generated code: a name that reaches the entry [T] of the name
    [last] through [n] entries resolves, with [n] more levels of depth,
    to exactly what [T] resolves to under the name [last] with the same
    source and destination. *)
Theorem alias_path_resolves_as_entry gen s n last T :
  resolvesVia gen s n last T ->
  forall fuel name jsValue dst,
    ResolveValue gen (n + fuel) name jsValue (Ident s) dst =
    ResolveValue gen fuel last jsValue T dst.
Proof.
  induction 1 as [s T Hs Hlook | s via n last T Hs Hlook _ IH];
    intros fuel name jsValue dst; simpl Nat.add;
    rewrite ResolveValue_Ident, (resolveIdent_alias _ _ _ _ _ _ _ Hs Hlook).
  - reflexivity.
  - apply IH.
Qed.

Lemma alias_path_resolves_as_entry_witness :
  ResolveValue sampleGen (2 + 0) "t" (argumentSource 0) (Ident "Celsius")
    (Some (Ident "out")) =
  ResolveValue sampleGen 0 "Degrees" (argumentSource 0) (Ident "int32")
    (Some (Ident "out")).
Proof.
  apply (alias_path_resolves_as_entry sampleGen "Celsius" 2 "Degrees"
           (Ident "int32")).
  apply (resolvesVia_next sampleGen "Celsius" "Degrees" 1);
    [reflexivity | reflexivity |].
  apply resolvesVia_entry; reflexivity.
Defined.

(** X14.  Levels of pointer do not add indirection to the generated
    code: with a destination supplied, [n] pointers around a type resolve
    to the statements of that type, written to the very same
    destination, under [n] nested guards that all test the same source;
    only the name handed down grows by one suffix per level. *)
Theorem pointer_levels_share_destination
    gen n fuel name jsValue X d e body :
  ResolveValue gen fuel (eltName n name) jsValue X (Some d) =
    Returns (e, body, None) ->
  ResolveValue gen (n + fuel) name jsValue (pointerTo n X) (Some d) =
    Returns (Some d, guarded n jsValue body, None).
Proof.
  revert name. induction n as [| n IH]; intros name Hchild; simpl.
  - destruct (ResolveValue_returnsDestination gen fuel _ _ _ _ _ _ Hchild)
      as [_ Hdst].
    rewrite (Hdst d eq_refl) in Hchild. exact Hchild.
  - exact (resolvePointer_returns _ _ _ _ (Some d) _ _ (IH _ Hchild)).
Qed.

Lemma pointer_levels_share_destination_witness :
  ResolveValue sampleGen 2 "p" (argumentSource 0)
    (StarExpr (StarExpr (Ident "int"))) (Some (Ident "out")) =
  Returns
    (Some (Ident "out"),
     [kindGuard (argumentSource 0)
        [kindGuard (argumentSource 0)
           [AssignStmt [Ident "out"] ASSIGN
              [readAs (argumentSource 0) "Int"]]]],
     None).
Proof.
  apply (pointer_levels_share_destination sampleGen 2 0 "p"
           (argumentSource 0) (Ident "int") (Ident "out")
           (Some (Ident "out"))).
  vm_compute. reflexivity.
Defined.
